(** * linstor-api-py: the network client of [linstor/linstorapi.py]

    A shallow embedding of the Python client: the return-code predicates of
    [ApiCallResponse], the frame codec ([_parse_payload_length],
    [_split_proto_msgs], the frame built by [send_msgs]), the receiver loop
    [LinstorNetClient.run], [send_msgs], [wait_for_result], [connect],
    [Linstor.node_create] and the message-id counter [AtomicInt].

    Python integers are unbounded: they are [Z].  [bytes] are [list byte].
    A raised exception is the [Raise] case of [PyResult]. *)

From Stdlib Require Import ZArith Lia List String Ascii Bool.
From Stdlib.Strings Require Import Byte.
From stdpp Require Import base option list functions gmap strings.
Import ListNotations.

Local Open Scope Z_scope.

(** ** Python results and exceptions *)

Inductive Exception :=
| LinstorError (msg : string)
| SocketError
| IndexError
| DecodeError
| AssertionError
| AttributeError
| StructError.

(** The result of running a piece of the client: it returns, it raises, or it
    has not finished on the inputs supplied so far (a loop still waiting for
    the peer or for another thread). *)
Inductive PyResult (A : Type) :=
| Return (a : A)
| Raise (e : Exception)
| Unfinished.
Arguments Return {A} a.
Arguments Raise {A} e.
Arguments Unfinished {A}.

#[export] Instance PyResult_ret : MRet PyResult := fun A a => Return a.
#[export] Instance PyResult_bind : MBind PyResult := fun A B k r =>
  match r with
  | Return a => k a
  | Raise e => Raise e
  | Unfinished => Unfinished
  end.

(** Python's [assert]. *)
Definition py_assert (b : bool) : PyResult unit :=
  if b then Return tt else Raise AssertionError.

Definition bytes := list byte.

Definition byte_val (b : byte) : Z := Z.of_N (Byte.to_N b).

(** The byte with value [z mod 256]. *)
Definition byte_of (z : Z) : byte :=
  match Byte.of_N (Z.to_N (z mod 256)) with
  | Some b => b
  | None => x00
  end.

(** [str.encode()] and [bytes.decode()] on ASCII text. *)
Definition encode (s : string) : bytes := list_byte_of_string s.
Definition decode (b : bytes) : string := string_of_list_byte b.

(** ** The constants of [linstor.sharedconsts]

    The module is not part of the sources at hand: the client is
    parameterised by its values. *)

Class ApiConsts := {
  MASK_ERROR : Z;
  MASK_WARN : Z;
  MASK_INFO : Z;
  API_VERSION : string;
  API_REPLY : string;
  API_LST_STOR_POOL_DFN : string;
  API_LST_STOR_POOL : string;
  API_LST_NODE : string;
  API_LST_RSC_DFN : string;
  API_LST_RSC : string;
  API_CRT_NODE : string;
  DFLT_CTRL_PORT_SSL : Z;
  DFLT_CTRL_PORT_PLAIN : Z;
  DFLT_STLT_PORT_PLAIN : Z;
  VAL_NETCOM_TYPE_PLAIN : string;
  VAL_NETCOM_TYPE_SSL : string;
  VAL_NODE_TYPE_CTRL : string;
}.

(** ** The protobuf messages the client handles

    The generated classes of [linstor.proto] are not part of the sources at
    hand.  The messages are records of the fields the client reads or writes;
    their wire encoding is a parameter, [ProtoLib]. *)

Record MsgHeader := { api_call : string; msg_id : Z }.

Record MsgApiVersion := { version : Z }.

Record MsgApiCallResponse := {
  ret_code_field : Z;
  message_format : string;
  details_format : string;
}.

(** An unset protobuf field is [None]. *)
Record NetInterface := {
  netif_name : option string;
  netif_address : option string;
  stlt_port : option Z;
  stlt_encryption_type : option string;
}.

Record Node := {
  node_name : option string;
  node_type : option string;
  net_interfaces : list NetInterface;
}.

Record MsgCrtNode := { node : Node }.

(** The message classes named by [reply_map]. *)
Inductive MsgType :=
| MsgApiCallResponse_cls
| MsgLstStorPoolDfn_cls
| MsgLstStorPool_cls
| MsgLstNode_cls
| MsgLstRscDfn_cls
| MsgLstRsc_cls.

(** A parsed body message: an object of class [pb_class], held by its
    serialised fields. *)
Record PbMsg := { pb_class : MsgType; pb_wire : bytes }.

Class Serialize (M : Type) := SerializeToString : M -> bytes.
Class Parse (M : Type) := ParseFromString : bytes -> PyResult M.

Class ProtoLib := {
  pb_MsgHeader_ser :: Serialize MsgHeader;
  pb_MsgHeader_parse :: Parse MsgHeader;
  pb_MsgApiVersion_parse :: Parse MsgApiVersion;
  pb_MsgCrtNode_ser :: Serialize MsgCrtNode;
  (* [resp = msg_type(); resp.ParseFromString(msg)] for a class of [reply_map] *)
  pb_parse_body : MsgType -> bytes -> PyResult PbMsg;
}.

(** ** [ApiCallResponse] *)

Record ApiCallResponse := { _proto_msg : MsgApiCallResponse }.

Module Response.
Section WithConsts.
Context {apiconsts : ApiConsts}.

Definition ret_code (self : ApiCallResponse) : Z :=
  ret_code_field (_proto_msg self).

Definition is_error (self : ApiCallResponse) : bool :=
  Z.land (ret_code self) MASK_ERROR =? MASK_ERROR.

Definition is_warning (self : ApiCallResponse) : bool :=
  Z.land (ret_code self) MASK_WARN =? MASK_WARN.

Definition is_info (self : ApiCallResponse) : bool :=
  Z.land (ret_code self) MASK_INFO =? MASK_INFO.

Definition is_success (self : ApiCallResponse) : bool :=
  negb (is_error self) && negb (is_warning self) && negb (is_info self).

End WithConsts.

(** The response that carries return code [rc]. *)
Definition of_ret_code (rc : Z) : ApiCallResponse :=
  {| _proto_msg := {| ret_code_field := rc; message_format := ""; details_format := "" |} |}.

(** Exactly one of four booleans is true. *)
Definition exactly_one (a b c d : bool) : Prop :=
  (a = true /\ b = false /\ c = false /\ d = false) \/
  (a = false /\ b = true /\ c = false /\ d = false) \/
  (a = false /\ b = false /\ c = true /\ d = false) \/
  (a = false /\ b = false /\ c = false /\ d = true).

(** The masks are bit masks of a 64-bit code. *)
Definition masks_64bit (k : ApiConsts) : Prop :=
  0 <= @MASK_ERROR k < 2 ^ 64 /\ 0 <= @MASK_WARN k < 2 ^ 64 /\ 0 <= @MASK_INFO k < 2 ^ 64.

(** A code contains a mask when every bit of the mask is set in the code. *)
Definition contains (rc mask : Z) : Prop :=
  forall i, 0 <= i -> Z.testbit mask i = true -> Z.testbit rc i = true.

End Response.

(** ** Frame codec *)

Module Codec.

(** [google.protobuf.internal.decoder._VarintDecoder(mask)]: the library's
    pure-Python loop.  [buffer[pos]] raises [IndexError] past the end; more
    than ten groups raise the decoder's error.  [groups] counts the
    iterations left before [shift] reaches 64. *)
Fixpoint DecodeVarint_loop (groups : nat) (mask : Z) (buffer : bytes)
    (result shift : Z) (pos : nat) : PyResult (Z * nat) :=
  match groups with
  | O => Unfinished
  | S groups' =>
    match buffer !! pos with
    | None => Raise IndexError
    | Some b =>
      let b := byte_val b in
      let result := Z.lor result (Z.shiftl (Z.land b 0x7f) shift) in
      let pos := S pos in
      if Z.land b 0x80 =? 0 then Return (Z.land result mask, pos)
      else
        let shift := shift + 7 in
        if 64 <=? shift then Raise DecodeError
        else DecodeVarint_loop groups' mask buffer result shift pos
    end
  end.

Definition _DecodeVarint32 (buffer : bytes) (pos : nat) : PyResult (Z * nat) :=
  DecodeVarint_loop 10 (2 ^ 32 - 1) buffer 0 0 pos.

Definition _DecodeVarint (buffer : bytes) (pos : nat) : PyResult (Z * nat) :=
  DecodeVarint_loop 10 (2 ^ 64 - 1) buffer 0 0 pos.

(** [encoder._EncodeVarint]: [bits = value & 0x7f; value >>= 7; while value:
    write(0x80 | bits); bits = value & 0x7f; value >>= 7; write(bits)]. *)
Fixpoint EncodeVarint_loop (fuel : nat) (bits value : Z) : bytes :=
  match fuel with
  | O => [byte_of bits]
  | S fuel' =>
    if value =? 0 then [byte_of bits]
    else byte_of (Z.lor 0x80 bits)
           :: EncodeVarint_loop fuel' (Z.land value 0x7f) (Z.shiftr value 7)
  end.

(** The loop runs once per group of seven bits of [value]. *)
Definition _VarintBytes (value : Z) : bytes :=
  EncodeVarint_loop (Z.to_nat (Z.log2 value)) (Z.land value 0x7f) (Z.shiftr value 7).

(** [struct.pack("!I", n)]: four bytes, big-endian; out of range raises. *)
Definition pack_I (n : Z) : PyResult bytes :=
  if (0 <=? n) && (n <? 2 ^ 32) then
    Return [byte_of (Z.shiftr n 24); byte_of (Z.shiftr n 16);
            byte_of (Z.shiftr n 8); byte_of n]
  else Raise StructError.

(** [struct.pack("!Q", 0)]. *)
Definition pack_Q_zero : bytes := repeat x00 8.

(** [struct.unpack("!I", b)] on four bytes. *)
Definition unpack_I (b : bytes) : Z :=
  fold_left (fun acc x => acc * 256 + byte_val x) b 0.

(** [_parse_payload_length]: the format ["!xxxxIxxxxxxxx"] has size 16. *)
Definition _parse_payload_length (header : bytes) : PyResult Z :=
  _ ← py_assert (Nat.eqb 16 (length header));
  Return (unpack_I (take 4 (drop 4 header))).

(** [_split_proto_msgs]: the [while n < len(payload)] loop.  Every iteration
    moves [n] forward by at least the one byte of the varint, so
    [length payload] iterations are enough. *)
Fixpoint split_loop (fuel : nat) (payload : bytes) (n : nat) (pb_msgs : list bytes)
    : PyResult (list bytes) :=
  if Nat.ltb n (length payload) then
    match fuel with
    | O => Unfinished
    | S fuel' =>
      '(msg_len, new_pos) ← _DecodeVarint32 payload n;
      let n := new_pos in
      let msg_buf := take (Z.to_nat msg_len) (drop n payload) in
      let n := (n + Z.to_nat msg_len)%nat in
      split_loop fuel' payload n (pb_msgs ++ [msg_buf])
    end
  else Return pb_msgs.

Definition _split_proto_msgs (payload : bytes) : PyResult (list bytes) :=
  split_loop (length payload) payload 0 [].

(** The positions the loop of [_split_proto_msgs] visits, each with the
    messages collected on arrival: position 0 with none, and from a position
    inside the buffer the position after the sub-message the varint there
    announces. *)
Inductive scans (payload : bytes) : nat -> list bytes -> Prop :=
| scans_start : scans payload 0 []
| scans_next n pb_msgs msg_len new_pos :
    scans payload n pb_msgs ->
    (n < length payload)%nat ->
    _DecodeVarint32 payload n = Return (msg_len, new_pos) ->
    scans payload (new_pos + Z.to_nat msg_len)
          (pb_msgs ++ [take (Z.to_nat msg_len) (drop new_pos payload)]).

(** Every byte from [pos] to the end of the buffer has the continuation bit:
    a varint read at [pos] runs off the end. *)
Definition runs_off_end (buffer : bytes) (pos : nat) : bool :=
  forallb (fun b => negb (Z.land (byte_val b) 0x80 =? 0)) (drop pos buffer).

Section WithProto.
Context {pb : ProtoLib}.

(** The frame [send_msgs] builds for a header and its body messages. *)
Definition delimited (serialized : bytes) : bytes :=
  _VarintBytes (Z.of_nat (length serialized)) ++ serialized.

Definition encode_frame (hdr_msg : MsgHeader) (bodies : list bytes) : PyResult bytes :=
  let h_type := repeat x00 4 in
  let h_reserved := pack_Q_zero in
  let msg_serialized := delimited (SerializeToString hdr_msg) in
  let msg_serialized :=
    fold_left (fun acc payload_serialized => acc ++ delimited payload_serialized)
              bodies msg_serialized in
  h_payload_length ← pack_I (Z.of_nat (length msg_serialized));
  Return (h_type ++ h_payload_length ++ h_reserved ++ msg_serialized).

End WithProto.
End Codec.

(** ** The session: [LinstorNetClient] and the world around it *)

Module Client.
Import Codec.

Record AtomicInt := { val : Z }.

(** [get_and_inc]: under the lock, [val = self.val; self.val += 1]. *)
Definition get_and_inc (self : AtomicInt) : Z * AtomicInt :=
  (val self, {| val := val self + 1 |}).

Inductive Port :=
| PortNumber (p : Z)
| PortText (s : string).

Record Socket := {
  sock_host : string;
  sock_port : Port;
  sock_ssl : bool;
  sock_blocking : bool;
}.

Inductive WrapperType := ApiCallResponse_cls.

(** An element of a reply list: [wrapper_type(resp)] or [resp]. *)
Inductive Reply :=
| Wrapped (wrapper_type : WrapperType) (resp : PbMsg)
| Plain (resp : PbMsg).

Record LinstorNetClient := {
  _socket : option Socket;
  _timeout : Z;
  _replies : gmap Z (list Reply);
  _api_version : option Z;
  _cur_msg_id : AtomicInt;
}.

(** [LinstorNetClient.__init__]. *)
Definition new_client (timeout : Z) : LinstorNetClient := {|
  _socket := None;
  _timeout := timeout;
  _replies := ∅;
  _api_version := None;
  _cur_msg_id := {| val := 1 |};
|}.

(** The thread that executes [run]: its two local variables while it loops. *)
Inductive Receiver :=
| RxNotStarted
| RxRunning (package : bytes) (exp_pkg_len : Z)
| RxExited
| RxCrashed (e : Exception).

Inductive LogRecord :=
| LogWarning (msg : string)
| LogError (msg : string).

(** The client object with what is observable around it: the receiver thread,
    the bytes the socket accepted, the connections opened, the number of
    [notifyAll] calls on [_cv_sock], and the warnings and errors logged. *)
Record World := {
  client : LinstorNetClient;
  receiver : Receiver;
  wire : bytes;
  opened : list (string * Port);
  notified : nat;
  logged : list LogRecord;
}.

Definition with_socket (s : option Socket) (c : LinstorNetClient) : LinstorNetClient :=
  {| _socket := s; _timeout := _timeout c; _replies := _replies c;
     _api_version := _api_version c; _cur_msg_id := _cur_msg_id c |}.

Definition with_replies (r : gmap Z (list Reply)) (c : LinstorNetClient) : LinstorNetClient :=
  {| _socket := _socket c; _timeout := _timeout c; _replies := r;
     _api_version := _api_version c; _cur_msg_id := _cur_msg_id c |}.

Definition with_api_version (v : option Z) (c : LinstorNetClient) : LinstorNetClient :=
  {| _socket := _socket c; _timeout := _timeout c; _replies := _replies c;
     _api_version := v; _cur_msg_id := _cur_msg_id c |}.

Definition with_cur_msg_id (a : AtomicInt) (c : LinstorNetClient) : LinstorNetClient :=
  {| _socket := _socket c; _timeout := _timeout c; _replies := _replies c;
     _api_version := _api_version c; _cur_msg_id := a |}.

Definition with_client (c : LinstorNetClient) (w : World) : World :=
  {| client := c; receiver := receiver w; wire := wire w; opened := opened w;
     notified := notified w; logged := logged w |}.

Definition with_receiver (r : Receiver) (w : World) : World :=
  {| client := client w; receiver := r; wire := wire w; opened := opened w;
     notified := notified w; logged := logged w |}.

Definition with_wire (b : bytes) (w : World) : World :=
  {| client := client w; receiver := receiver w; wire := b; opened := opened w;
     notified := notified w; logged := logged w |}.

Definition with_opened (o : list (string * Port)) (w : World) : World :=
  {| client := client w; receiver := receiver w; wire := wire w; opened := o;
     notified := notified w; logged := logged w |}.

Definition notifyAll (w : World) : World :=
  {| client := client w; receiver := receiver w; wire := wire w; opened := opened w;
     notified := S (notified w); logged := logged w |}.

Definition log (r : LogRecord) (w : World) : World :=
  {| client := client w; receiver := receiver w; wire := wire w; opened := opened w;
     notified := notified w; logged := logged w ++ [r] |}.

(** The world of a client object whose thread has not been started. *)
Definition new_world (c : LinstorNetClient) : World :=
  {| client := c; receiver := RxNotStarted; wire := []; opened := [];
     notified := 0; logged := [] |}.

(** [Thread.start]: [run] begins with [package = bytes()] and
    [exp_pkg_len = 0]. *)
Definition start (w : World) : World := with_receiver (RxRunning [] 0) w.

(** The [connected] property. *)
Definition connected (w : World) : bool :=
  match _socket (client w) with Some _ => true | None => false end.

(** [disconnect]: under [_slock], close the socket and forget it. *)
Definition disconnect (w : World) : World :=
  match _socket (client w) with
  | Some _ => with_client (with_socket None (client w)) w
  | None => w
  end.

Section WithLibs.
Context {apiconsts : ApiConsts} {pb : ProtoLib}.

(** [_parse_proto_msgs]. *)
Fixpoint parse_each (msg_type : MsgType) (wrapper_type : option WrapperType)
    (data : list bytes) (msg_resps : list Reply) : PyResult (list Reply) :=
  match data with
  | [] => Return msg_resps
  | msg :: data' =>
    resp ← pb_parse_body msg_type msg;
    parse_each msg_type wrapper_type data'
      (msg_resps ++ [match wrapper_type with
                     | Some wt => Wrapped wt resp
                     | None => Plain resp
                     end])
  end.

Definition _parse_proto_msgs (type_tuple : MsgType * option WrapperType)
    (data : list bytes) : PyResult (list Reply) :=
  parse_each type_tuple.1 type_tuple.2 data [].

(** [_parse_api_version]: the version is stored once; a second message is
    only logged. *)
Definition _parse_api_version (data : bytes) (w : World) : PyResult unit * World :=
  match ParseFromString (M := MsgApiVersion) data with
  | Return msg =>
    match _api_version (client w) with
    | None => (Return tt, with_client (with_api_version (Some (version msg)) (client w)) w)
    | Some _ => (Return tt, log (LogWarning "API version message already received.") w)
    end
  | Raise e => (Raise e, w)
  | Unfinished => (Unfinished, w)
  end.

(** The dict literal [reply_map] of [run]: a later key replaces an equal
    earlier one. *)
Definition reply_map : gmap string (MsgType * option WrapperType) :=
  <[API_LST_RSC := (MsgLstRsc_cls, None)]>
  (<[API_LST_RSC_DFN := (MsgLstRscDfn_cls, None)]>
  (<[API_LST_NODE := (MsgLstNode_cls, None)]>
  (<[API_LST_STOR_POOL := (MsgLstStorPool_cls, None)]>
  (<[API_LST_STOR_POOL_DFN := (MsgLstStorPoolDfn_cls, None)]>
  (<[API_REPLY := (MsgApiCallResponse_cls, Some ApiCallResponse_cls)]> ∅))))).

(** What [recv] gives the caller: bytes (none at end of stream) or
    [socket.error]. *)
Inductive RecvResult :=
| RecvBytes (data : bytes)
| RecvRaises.

(** [run], lines 269 to 298: the complete package [package] is split and
    dispatched.  The result is what the statements raise, if they do. *)
Definition dispatch (package : bytes) (w : World) : PyResult unit * World :=
  match _split_proto_msgs (drop 16 package) with
  | Raise e => (Raise e, w)
  | Unfinished => (Unfinished, w)
  | Return msgs =>
    match py_assert (Nat.ltb 0 (length msgs)) with
    | Raise e => (Raise e, w)
    | Unfinished => (Unfinished, w)
    | Return _ =>
      match data0 ← (match msgs !! 0%nat with
                     | Some d => Return d
                     | None => Raise IndexError
                     end);
            ParseFromString (M := MsgHeader) data0 with
      | Raise e => (Raise e, w)
      | Unfinished => (Unfinished, w)
      | Return hdr =>
        if String.eqb (api_call hdr) API_VERSION then
          match msgs !! 1%nat with
          | None => (Raise IndexError, w)
          | Some data =>
            match _parse_api_version data w with
            | (Return _, w) => (Raise AssertionError, w)
            | (r, w) => (r, w)
            end
          end
        else
          match reply_map !! api_call hdr with
          | Some type_tuple =>
            match _parse_proto_msgs type_tuple (drop 1 msgs) with
            | Raise e => (Raise e, w)
            | Unfinished => (Unfinished, w)
            | Return replies =>
              (Return tt,
               notifyAll (with_client
                 (with_replies (<[msg_id hdr := replies]> (_replies (client w))) (client w)) w))
            end
          | None =>
            (Return tt, log (LogError ("Unknown message reply: " ++ api_call hdr)) w)
          end
      end
    end
  end.

(** One pass of [while self._socket]: what [select] reports, whether another
    thread ran [disconnect] while the receiver was inside [select], and what
    [recv] gives if it is called.  [select] itself is taken not to raise. *)
Record Pass := {
  select_rds : bool;
  disconnect_in_select : bool;
  recv_result : RecvResult;
}.

(** The body of [for sock in rds], under [_slock], from [recv] on. *)
Definition receive (read : bytes) (package : bytes) (exp_pkg_len : Z) (w : World) : World :=
  let package := package ++ read in
  let pkg_len := Z.of_nat (length package) in
  let exp_r :=
    if (15 <? pkg_len) && (exp_pkg_len =? 0)
    then _parse_payload_length (take 16 package)
    else Return exp_pkg_len in
  match exp_r with
  | Raise e => with_receiver (RxCrashed e) w
  | Unfinished => w
  | Return exp_pkg_len =>
    if negb (exp_pkg_len =? 0) && (pkg_len =? exp_pkg_len + 16) then
      match dispatch package w with
      | (Return _, w) => with_receiver (RxRunning [] 0) w
      | (Raise e, w) => with_receiver (RxCrashed e) w
      | (Unfinished, w) => w
      end
    else with_receiver (RxRunning package exp_pkg_len) w
  end.

Definition run_pass (p : Pass) (w : World) : World :=
  match receiver w with
  | RxRunning package exp_pkg_len =>
    match _socket (client w) with
    | None => with_receiver RxExited w
    | Some _ =>
      let w := if disconnect_in_select p then disconnect w else w in
      if select_rds p then
        match _socket (client w) with
        | None => w
        | Some _ =>
          match recv_result p with
          | RecvRaises => with_receiver (RxCrashed SocketError) w
          | RecvBytes read => receive read package exp_pkg_len w
          end
        end
      else w
    end
  | _ => w
  end.

(** [run] over the passes the environment supplies. *)
Definition run (passes : list Pass) (w : World) : World :=
  foldl (fun w p => run_pass p w) w passes.

(** A pass in which [select] reports the socket readable and [recv] gives
    [data]. *)
Definition reads (data : bytes) : Pass :=
  {| select_rds := true; disconnect_in_select := false; recv_result := RecvBytes data |}.

(** The loop of [send_msgs] under [_slock].  [room] lists, call by call, how
    many bytes the non-blocking socket can take: [send] accepts that many
    bytes from the start of its argument and returns their number; with no
    room it raises; past the end of the list the socket takes everything. *)
Fixpoint send_loop (fuel : nat) (full_msg : bytes) (msg_len sent : nat)
    (room : list nat) (w : World) : PyResult unit * World :=
  if Nat.ltb sent msg_len then
    match fuel with
    | O => (Unfinished, w)
    | S fuel' =>
      match _socket (client w) with
      | None => (Raise AttributeError, w)
      | Some _ =>
        let available := hd (length full_msg) room in
        if Nat.eqb available 0 then (Raise SocketError, w)
        else
          let accepted := Nat.min available (length full_msg) in
          send_loop fuel' full_msg msg_len (sent + accepted) (tl room)
            (with_wire (wire w ++ take accepted full_msg) w)
      end
    end
  else (Return tt, w).

Definition send_msgs {M} `{Serialize M} (api_call_type : string)
    (msgs : option (list M)) (room : list nat) (w : World) : PyResult Z * World :=
  let '(id, counter) := get_and_inc (_cur_msg_id (client w)) in
  let w := with_client (with_cur_msg_id counter (client w)) w in
  let hdr_msg := {| api_call := api_call_type; msg_id := id |} in
  let bodies := map SerializeToString (default [] msgs) in
  match encode_frame hdr_msg bodies with
  | Raise e => (Raise e, w)
  | Unfinished => (Unfinished, w)
  | Return full_msg =>
    let msg_len := length full_msg in
    match send_loop msg_len full_msg msg_len 0 room w with
    | (Return _, w) => (Return (msg_id hdr_msg), w)
    | (Raise e, w) => (Raise e, w)
    | (Unfinished, w) => (Unfinished, w)
    end
  end.

Definition send_msg {M} `{Serialize M} (api_call_type : string) (msg : option M)
    (room : list nat) (w : World) : PyResult Z * World :=
  send_msgs api_call_type (match msg with Some m => Some [m] | None => None end) room w.

(** What other threads do while a caller sleeps in [_cv_sock.wait(1)]. *)
Inductive EnvAction :=
| EnvPass (p : Pass)
| EnvDisconnect.

Definition env_step (w : World) (a : EnvAction) : World :=
  match a with
  | EnvPass p => run_pass p w
  | EnvDisconnect => disconnect w
  end.

(** [wait_for_result]: [env] lists, wait by wait, the actions of the other
    threads during that wait. *)
Fixpoint wait_for_result (msg_id : Z) (env : list (list EnvAction)) (w : World)
    : PyResult (list Reply) * World :=
  match _replies (client w) !! msg_id with
  | Some replies =>
    (Return replies, with_client (with_replies (delete msg_id (_replies (client w))) (client w)) w)
  | None =>
    if negb (connected w) then (Return [], w)
    else
      match env with
      | [] => (Unfinished, w)
      | actions :: env' => wait_for_result msg_id env' (foldl env_step w actions)
      end
  end.

(** The session after the waits of [env]. *)
Definition after_waits (env : list (list EnvAction)) (w : World) : World :=
  foldl (foldl env_step) w env.

(** The caller of [wait_for_result] finds neither its reply nor the session
    disconnected each time it looks during the waits of [env]: at entry and
    after every wait but the last. *)
Fixpoint blocked_during (msg_id : Z) (env : list (list EnvAction)) (w : World) : Prop :=
  match env with
  | [] => True
  | actions :: env' =>
    _replies (client w) !! msg_id = None /\ connected w = true
    /\ blocked_during msg_id env' (foldl env_step w actions)
  end.

(** During the waits of [env] the other threads never call [disconnect]:
    all that happens are passes of the receiver. *)
Definition only_passes (env : list (list EnvAction)) : Prop :=
  Forall (Forall (fun a => match a with
                           | EnvPass p => disconnect_in_select p = false
                           | EnvDisconnect => False
                           end)) env.

(** With the bytes [read] the buffer [package] becomes one complete frame
    whose header sub-message carries the [API_VERSION] tag and whose second
    sub-message is a version message. *)
Definition completes_version_frame (package read : bytes) (exp_pkg_len : Z) : Prop :=
  exists N msgs data0 data1 hdr msg,
    _parse_payload_length (take 16 (package ++ read)) = Return N
    /\ N <> 0 /\ Z.of_nat (length (package ++ read)) = N + 16
    /\ (exp_pkg_len = 0 \/ exp_pkg_len = N)
    /\ _split_proto_msgs (drop 16 (package ++ read)) = Return msgs
    /\ msgs !! 0%nat = Some data0
    /\ ParseFromString (M := MsgHeader) data0 = Return hdr
    /\ api_call hdr = API_VERSION
    /\ msgs !! 1%nat = Some data1
    /\ ParseFromString (M := MsgApiVersion) data1 = Return msg.

(** *** [connect] *)

(** [urlparse(server)], as far as [connect] reads it: the scheme is the text
    before the first colon, lower-cased, when it is made of scheme characters;
    the network location is what follows [//] up to the next [/], [?] or [#]. *)
Record ParseResult := { scheme : string; netloc : string }.

Definition is_between (lo hi : nat) (c : ascii) : bool :=
  Nat.leb lo (nat_of_ascii c) && Nat.leb (nat_of_ascii c) hi.

Definition scheme_char (c : ascii) : bool :=
  is_between 97 122 c || is_between 65 90 c || is_between 48 57 c
  || Ascii.eqb c "+" || Ascii.eqb c "-" || Ascii.eqb c ".".

Definition lower_char (c : ascii) : ascii :=
  if is_between 65 90 c then ascii_of_nat (nat_of_ascii c + 32) else c.

Fixpoint lower (s : string) : string :=
  match s with
  | EmptyString => EmptyString
  | String c s' => String (lower_char c) (lower s')
  end.

Fixpoint until_delim (s : string) : string :=
  match s with
  | EmptyString => EmptyString
  | String c s' =>
    if Ascii.eqb c "/" || Ascii.eqb c "?" || Ascii.eqb c "#" then EmptyString
    else String c (until_delim s')
  end.

Definition urlparse (url : string) : ParseResult :=
  let '(sch, rest) :=
    match String.index 0 ":" url with
    | Some (S i) =>
      let before := String.substring 0 (S i) url in
      if forallb scheme_char (list_ascii_of_string before)
      then (lower before, String.substring (S (S i)) (String.length url) url)
      else (EmptyString, url)
    | _ => (EmptyString, url)
    end in
  {| scheme := sch;
     netloc := if String.prefix "//" rest
               then until_delim (String.substring 2 (String.length rest) rest)
               else EmptyString |}.

(** Modelled from the spec: [linstor.utils.parse_host] is missing from the
    sources.  The spec gives the shape [HOST[:PORT]]: the host is the text
    before the colon and the port the text after it, and there is no port
    when there is no colon. *)
Definition parse_host (host_str : string) : string * option string :=
  match String.index 0 ":" host_str with
  | Some i =>
    (String.substring 0 i host_str,
     Some (String.substring (S i) (String.length host_str) host_str))
  | None => (host_str, None)
  end.

(** How the peer behaves while [connect] runs. *)
Record Peer := {
  accepts_connection : bool;
  accepts_tls : bool;
  greeting : list RecvResult;
}.

(** [api_msg_data += self._socket.recv(...)] while fewer than [n] bytes are
    there: a blocking read per element of [incoming]. *)
Fixpoint recv_until (n : nat) (api_msg_data : bytes) (incoming : list RecvResult)
    : PyResult (bytes * list RecvResult) :=
  if Nat.ltb (length api_msg_data) n then
    match incoming with
    | [] => Unfinished
    | RecvRaises :: _ => Raise SocketError
    | RecvBytes read :: incoming' => recv_until n (api_msg_data ++ read) incoming'
    end
  else Return (api_msg_data, incoming).

Definition index_or_raise {A} (l : list A) (i : nat) : PyResult A :=
  match l !! i with
  | Some x => Return x
  | None => Raise IndexError
  end.

(** [_read_api_version_blocking]. *)
Definition _read_api_version_blocking (incoming : list RecvResult) (w : World)
    : PyResult bool * World :=
  let parsed : PyResult bytes :=
    '(api_msg_data, incoming) ←
      match incoming with
      | [] => Unfinished
      | RecvRaises :: _ => Raise SocketError
      | RecvBytes read :: incoming' => Return (read, incoming')
      end;
    '(api_msg_data, incoming) ← recv_until 16 api_msg_data incoming;
    pkg_len ← _parse_payload_length (take 16 api_msg_data);
    '(api_msg_data, incoming) ← recv_until (Z.to_nat (pkg_len + 16)) api_msg_data incoming;
    msgs ← _split_proto_msgs (drop 16 api_msg_data);
    _ ← py_assert (Nat.ltb 0 (length msgs));
    data0 ← index_or_raise msgs 0;
    hdr ← ParseFromString (M := MsgHeader) data0;
    _ ← py_assert (String.eqb (api_call hdr) API_VERSION);
    index_or_raise msgs 1 in
  match parsed with
  | Return data =>
    match _parse_api_version data w with
    | (Return _, w) => (Return true, w)
    | (Raise e, w) => (Raise e, w)
    | (Unfinished, w) => (Unfinished, w)
    end
  | Raise e => (Raise e, w)
  | Unfinished => (Unfinished, w)
  end.

(** [if not port]: [None] and the empty string are false. *)
Definition chosen_port (sch : string) (port : option string) : Port :=
  match port with
  | Some (String c s) => PortText (String c s)
  | _ =>
    PortNumber (if String.eqb sch "linstor+ssl" then DFLT_CTRL_PORT_SSL
                else DFLT_CTRL_PORT_PLAIN)
  end.

(** [connect]: a [socket.error] is turned into a [LinstorError] after
    [self._socket = None]; other exceptions leave the [try] as they are. *)
Definition connect (server : string) (peer : Peer) (w : World) : PyResult bool * World :=
  let url := urlparse server in
  if negb (String.prefix "linstor" (scheme url)) then
    (Raise (LinstorError ("Unknown uri scheme '" ++ scheme url ++ "' in '" ++ server ++ "'.")), w)
  else
    let '(host, port) := parse_host (netloc url) in
    let port := chosen_port (scheme url) port in
    let failed w :=
      (Raise (LinstorError "Error connecting: "),
       with_client (with_socket None (client w)) w) in
    let w := with_opened (opened w ++ [(host, port)]) w in
    if negb (accepts_connection peer) then failed w
    else
      let sock := {| sock_host := host; sock_port := port; sock_ssl := false;
                     sock_blocking := true |} in
      let w := with_client (with_socket (Some sock) (client w)) w in
      if String.eqb (scheme url) "linstor+ssl" && negb (accepts_tls peer) then failed w
      else
        let sock := {| sock_host := host; sock_port := port;
                       sock_ssl := String.eqb (scheme url) "linstor+ssl";
                       sock_blocking := true |} in
        let w := with_client (with_socket (Some sock) (client w)) w in
        match _read_api_version_blocking (greeting peer) w with
        | (Return _, w) =>
          let sock := {| sock_host := host; sock_port := port;
                         sock_ssl := String.eqb (scheme url) "linstor+ssl";
                         sock_blocking := false |} in
          (Return true, with_client (with_socket (Some sock) (client w)) w)
        | (Raise SocketError, w) => failed w
        | (r, w) => (r, w)
        end.

End WithLibs.
End Client.

(** ** The [Linstor] object *)

Module Linstor.
Import Client.

Section WithLibs.
Context {apiconsts : ApiConsts} {pb : ProtoLib}.

(** [Linstor.connect]: connect the client, then start its thread. *)
Definition connect (ctrl_host : string) (peer : Peer) (w : World) : PyResult unit * World :=
  match Client.connect ctrl_host peer w with
  | (Return _, w) => (Return tt, start w)
  | (Raise e, w) => (Raise e, w)
  | (Unfinished, w) => (Unfinished, w)
  end.

(** [node_create], lines 395 to 413: the message that is handed to
    [send_msg]. *)
Definition node_create_msg (node_name node_type ip com_type : string)
    (port : option Z) (netif_name : string) : PyResult MsgCrtNode :=
  let name := netif_name in
  let netif := {| netif_name := Some name; netif_address := Some ip;
                  stlt_port := None; stlt_encryption_type := None |} in
  netif ←
    match port with
    | None =>
      port ←
        (if String.eqb com_type VAL_NETCOM_TYPE_PLAIN then
           Return (if String.eqb node_type VAL_NODE_TYPE_CTRL
                   then DFLT_CTRL_PORT_PLAIN else DFLT_STLT_PORT_PLAIN)
         else if String.eqb com_type VAL_NETCOM_TYPE_SSL then
           Return DFLT_CTRL_PORT_SSL
         else
           Raise (LinstorError ("Communication type " ++ com_type ++ " has no default port")));
      Return {| netif_name := Some name; netif_address := Some ip;
                stlt_port := Some port; stlt_encryption_type := Some com_type |}
    | Some _ => Return netif
    end;
  Return {| node := {| node_name := Some node_name; node_type := Some node_type;
                       net_interfaces := [netif] |} |}.

(** The message of [node_create] with the two satellite fields as given. *)
Definition crt_node_msg (node_name node_type ip netif_name : string)
    (port : option Z) (enc : option string) : MsgCrtNode :=
  {| node := {| node_name := Some node_name; node_type := Some node_type;
                net_interfaces :=
                  [{| netif_name := Some netif_name; netif_address := Some ip;
                      stlt_port := port; stlt_encryption_type := enc |}] |} |}.

(** [node_create]: build the message, send it, wait for the replies. *)
Definition node_create (node_name node_type ip com_type : string) (port : option Z)
    (netif_name : string) (room : list nat) (env : list (list EnvAction)) (w : World)
    : PyResult (list Reply) * World :=
  match node_create_msg node_name node_type ip com_type port netif_name with
  | Return msg =>
    match send_msg API_CRT_NODE (Some msg) room w with
    | (Return msg_id, w) => wait_for_result msg_id env w
    | (Raise e, w) => (Raise e, w)
    | (Unfinished, w) => (Unfinished, w)
    end
  | Raise e => (Raise e, w)
  | Unfinished => (Unfinished, w)
  end.

End WithLibs.
End Linstor.

(** ** Concurrent senders

    [send_msgs] run by several threads, cut at the points where another thread
    can run: taking the counter's lock, the two statements of [get_and_inc]
    under it, leaving it with the id, taking [_slock], and leaving it once
    the frame is written. *)

Module Senders.
Import Client.

Inductive PC :=
| Idle                 (* outside send_msgs *)
| IncLocked            (* in get_and_inc, holding self.lock *)
| IncRead (v : Z)      (* after val = self.val *)
| IncWritten (v : Z)   (* after self.val += 1 *)
| HasId (v : Z)        (* hdr_msg.msg_id = v, frame built, before with self._slock *)
| Writing (v : Z).     (* holding _slock, in the send loop *)

Inductive Event :=
| EvAlloc (t : nat) (id : Z)   (* get_and_inc returned id to thread t *)
| EvSent (t : nat) (id : Z).   (* thread t wrote the frame with this id *)

Record State := {
  counter : AtomicInt;
  lock : option nat;
  slock : option nat;
  pcs : nat -> PC;
  trace : list Event;
}.

(** A fresh session: the counter of [LinstorNetClient.__init__]. *)
Definition init : State := {|
  counter := _cur_msg_id (new_client 20);
  lock := None;
  slock := None;
  pcs := fun _ => Idle;
  trace := [];
|}.

(** One step of thread [t]; a thread waiting for a lock stays where it is. *)
Definition step (t : nat) (s : State) : State :=
  match pcs s t with
  | Idle =>
    match lock s with
    | None => {| counter := counter s; lock := Some t; slock := slock s;
                 pcs := <[t := IncLocked]> (pcs s); trace := trace s |}
    | Some _ => s
    end
  | IncLocked =>
    {| counter := counter s; lock := lock s; slock := slock s;
       pcs := <[t := IncRead (val (counter s))]> (pcs s); trace := trace s |}
  | IncRead v =>
    {| counter := {| val := val (counter s) + 1 |}; lock := lock s; slock := slock s;
       pcs := <[t := IncWritten v]> (pcs s); trace := trace s |}
  | IncWritten v =>
    {| counter := counter s; lock := None; slock := slock s;
       pcs := <[t := HasId v]> (pcs s); trace := trace s ++ [EvAlloc t v] |}
  | HasId v =>
    match slock s with
    | None => {| counter := counter s; lock := lock s; slock := Some t;
                 pcs := <[t := Writing v]> (pcs s); trace := trace s |}
    | Some _ => s
    end
  | Writing v =>
    {| counter := counter s; lock := lock s; slock := None;
       pcs := <[t := Idle]> (pcs s); trace := trace s ++ [EvSent t v] |}
  end.

(** The threads run in the order of the schedule. *)
Definition exec (sched : list nat) (s : State) : State :=
  foldl (fun s t => step t s) s sched.

Definition ev_id (e : Event) : Z :=
  match e with EvAlloc _ id => id | EvSent _ id => id end.

(** The ids [get_and_inc] returned, in the order it returned them. *)
Definition alloc_ids (tr : list Event) : list Z :=
  omap (fun e => match e with EvAlloc _ id => Some id | EvSent _ _ => None end) tr.

(** The ids of the frames on the wire, in the order they were written. *)
Definition sent_ids (tr : list Event) : list Z :=
  omap (fun e => match e with EvSent _ id => Some id | EvAlloc _ _ => None end) tr.

(** [1, 2, ..., n]. *)
Definition first_ids (n : nat) : list Z := map Z.of_nat (seq 1 n).

(** Every event that precedes the return of an id carries a smaller id. *)
Definition ordered (tr : list Event) : Prop :=
  forall pre t id post, tr = pre ++ EvAlloc t id :: post ->
    Forall (fun e => ev_id e < id) pre.

Definition in_critical (p : PC) : bool :=
  match p with
  | IncLocked | IncRead _ | IncWritten _ => true
  | _ => false
  end.

(** What holds of every state the threads can reach; [issued] is the number
    of ids returned so far. *)
Record Inv (s : State) : Prop := {
  inv_lock : forall t, in_critical (pcs s t) = true -> lock s = Some t;
  inv_read : forall t v, pcs s t = IncRead v ->
    v = val (counter s) /\ v = Z.of_nat (length (alloc_ids (trace s))) + 1;
  inv_written : forall t v, pcs s t = IncWritten v ->
    val (counter s) = v + 1 /\ v = Z.of_nat (length (alloc_ids (trace s))) + 1;
  inv_val : (forall t v, pcs s t <> IncWritten v) ->
    val (counter s) = Z.of_nat (length (alloc_ids (trace s))) + 1;
  inv_ids : alloc_ids (trace s) = first_ids (length (alloc_ids (trace s)));
  inv_bound : Forall (fun e => 1 <= ev_id e <= Z.of_nat (length (alloc_ids (trace s))))
                     (trace s);
  inv_held : forall t v, pcs s t = HasId v \/ pcs s t = Writing v ->
    1 <= v <= Z.of_nat (length (alloc_ids (trace s)));
  inv_order : ordered (trace s);
}.

End Senders.

(** ** Sample instances

    Used only to evaluate the client on concrete inputs. *)

(** Modelled from the spec: [linstor.sharedconsts] is missing from the
    sources.  The spec asks for three disjoint category masks on a 64-bit
    return code, distinct fixed controller ports for plain and TLS and a
    satellite port, and writes the tags as [API_VERSION], [API_LST_NODE]. *)
Definition sample_consts : ApiConsts := {|
  MASK_ERROR := 0x8000000000000000;
  MASK_WARN := 0x4000000000000000;
  MASK_INFO := 0x2000000000000000;
  API_VERSION := "API_VERSION";
  API_REPLY := "API_REPLY";
  API_LST_STOR_POOL_DFN := "API_LST_STOR_POOL_DFN";
  API_LST_STOR_POOL := "API_LST_STOR_POOL";
  API_LST_NODE := "API_LST_NODE";
  API_LST_RSC_DFN := "API_LST_RSC_DFN";
  API_LST_RSC := "API_LST_RSC";
  API_CRT_NODE := "API_CRT_NODE";
  DFLT_CTRL_PORT_SSL := 3377;
  DFLT_CTRL_PORT_PLAIN := 3376;
  DFLT_STLT_PORT_PLAIN := 3366;
  VAL_NETCOM_TYPE_PLAIN := "PLAIN";
  VAL_NETCOM_TYPE_SSL := "SSL";
  VAL_NODE_TYPE_CTRL := "CONTROLLER";
|}.

Module Wire.
Import Codec.

Definition field_bytes (tag : byte) (data : bytes) : bytes :=
  tag :: delimited data.

Definition field_varint (tag : byte) (n : Z) : bytes :=
  tag :: _VarintBytes (n mod 2 ^ 64).

Definition field_opt {A} (f : A -> bytes) (o : option A) : bytes :=
  match o with Some a => f a | None => [] end.

(** Modelled from the spec: the generated class [MsgHeader] is missing from
    the sources.  The spec gives the header sub-message as
    [{api_call: string tag, msg_id: uint64}]; it is written here in protobuf's
    wire format with field numbers 1 and 2. *)
Definition ser_MsgHeader (h : MsgHeader) : bytes :=
  field_bytes x0a (encode (api_call h)) ++ field_varint x10 (msg_id h).

Definition decode_error {A} (r : PyResult A) : PyResult A :=
  match r with
  | Raise _ => Raise DecodeError
  | r => r
  end.

Definition expect_tag (tag : byte) (data : bytes) (pos : nat) : PyResult nat :=
  match data !! pos with
  | Some b => if Byte.eqb b tag then Return (S pos) else Raise DecodeError
  | None => Raise DecodeError
  end.

Definition parse_MsgHeader (data : bytes) : PyResult MsgHeader :=
  pos ← expect_tag x0a data 0;
  '(len, pos) ← decode_error (_DecodeVarint data pos);
  if Nat.ltb (length data) (pos + Z.to_nat len) then Raise DecodeError
  else
    let tag := decode (take (Z.to_nat len) (drop pos data)) in
    pos ← expect_tag x10 data (pos + Z.to_nat len);
    '(id, pos) ← decode_error (_DecodeVarint data pos);
    if Nat.eqb pos (length data)
    then Return {| api_call := tag; msg_id := id |}
    else Raise DecodeError.

(** Modelled from the spec: the generated class [MsgApiVersion] is missing
    from the sources.  The spec gives its body as [{version}]: field 1, a
    varint. *)
Definition parse_MsgApiVersion (data : bytes) : PyResult MsgApiVersion :=
  pos ← expect_tag x08 data 0;
  '(v, pos) ← decode_error (_DecodeVarint data pos);
  if Nat.eqb pos (length data) then Return {| version := v |} else Raise DecodeError.

Definition ser_MsgApiVersion (m : MsgApiVersion) : bytes :=
  field_varint x08 (version m).

Definition ser_NetInterface (n : NetInterface) : bytes :=
  field_opt (fun s => field_bytes x0a (encode s)) (netif_name n)
  ++ field_opt (fun s => field_bytes x12 (encode s)) (netif_address n)
  ++ field_opt (field_varint x18) (stlt_port n)
  ++ field_opt (fun s => field_bytes x22 (encode s)) (stlt_encryption_type n).

Definition ser_Node (n : Node) : bytes :=
  field_opt (fun s => field_bytes x0a (encode s)) (node_name n)
  ++ field_opt (fun s => field_bytes x12 (encode s)) (node_type n)
  ++ concat (map (fun i => field_bytes x1a (ser_NetInterface i)) (net_interfaces n)).

(** Modelled from the spec: the generated class [MsgCrtNode] is missing from
    the sources; the spec leaves the schema of operation messages to the
    external message definitions.  The fields [node_create] assigns are
    written in protobuf's wire format, an unset field taking no bytes. *)
Definition ser_MsgCrtNode (m : MsgCrtNode) : bytes :=
  field_bytes x0a (ser_Node (node m)).

(** Modelled from the spec: the generated reply classes are missing from the
    sources, and the spec leaves their schema out; a body parses to the
    object of its class that holds these bytes. *)
Definition parse_body (cls : MsgType) (data : bytes) : PyResult PbMsg :=
  Return {| pb_class := cls; pb_wire := data |}.

Definition sample_proto : ProtoLib := {|
  pb_MsgHeader_ser := ser_MsgHeader;
  pb_MsgHeader_parse := parse_MsgHeader;
  pb_MsgApiVersion_parse := parse_MsgApiVersion;
  pb_MsgCrtNode_ser := ser_MsgCrtNode;
  pb_parse_body := parse_body;
|}.

(** The frame a controller sends for a header and already serialised bodies. *)
Definition frame (tag : string) (id : Z) (bodies : list bytes) : bytes :=
  match encode_frame (pb := sample_proto) {| api_call := tag; msg_id := id |} bodies with
  | Return f => f
  | _ => []
  end.

End Wire.


Module Samples.
Import Codec Client Wire.

#[local] Existing Instance sample_consts.
#[local] Existing Instance sample_proto.

(** The first frame of a controller: the [API_VERSION] header and a version
    message. *)
Definition version_frame : bytes :=
  frame "API_VERSION" 0 [ser_MsgApiVersion {| version := 1 |}].

Definition controller : Peer :=
  {| accepts_connection := true; accepts_tls := true;
     greeting := [RecvBytes version_frame] |}.

(** A session after [Linstor.connect]: connected, the handshake done, the
    receiver thread started. *)
Definition session : World :=
  (Linstor.connect "linstor://controller" controller (new_world (new_client 20))).2.

(** Two replies to [node_list] requests with ids 1 and 2. *)
Definition reply1 : bytes := frame "API_LST_NODE" 1 [[x01; x02]].
Definition reply2 : bytes := frame "API_LST_NODE" 2 [[x01; x02]].

(** The frame [send_msgs] builds for the first [node_list] request. *)
Definition request1 : bytes := frame "API_LST_NODE" 1 [].

(** A pass in which [recv] raises [socket.error]. *)
Definition recv_fails : Pass :=
  {| select_rds := true; disconnect_in_select := false; recv_result := RecvRaises |}.

(** A pass in which [select] times out. *)
Definition timeout : Pass :=
  {| select_rds := false; disconnect_in_select := false; recv_result := RecvBytes [] |}.

End Samples.

(** ** Frames in the receiver's buffer *)

Module Framing.
Import Codec Client.

Section WithLibs.
Context {apiconsts : ApiConsts} {pb : ProtoLib}.

(** [self._replies[id] = replies] and [notifyAll()], as [run] does them. *)
Definition deposit (id : Z) (replies : list Reply) (w : World) : World :=
  notifyAll (with_client (with_replies (<[id := replies]> (_replies (client w))) (client w)) w).

(** The receiver holds the first bytes [package] of the frame [frm], which
    announces a payload that is not empty, and the frame is not complete
    yet; the expected length is known once the 16 bytes of the header are
    there. *)
Definition awaiting (frm package : bytes) (exp_pkg_len : Z) : Prop :=
  exists N, _parse_payload_length (take 16 frm) = Return N
    /\ N <> 0
    /\ Z.of_nat (length frm) = N + 16
    /\ (length package < length frm)%nat
    /\ exp_pkg_len = (if Nat.ltb (length package) 16 then 0 else N).

(** The payload of [frm] splits into a header sub-message that parses to
    [hdr] and the sub-messages [bodies]. *)
Definition carries (frm : bytes) (hdr : MsgHeader) (bodies : list bytes) : Prop :=
  exists data0, _split_proto_msgs (drop 16 frm) = Return (data0 :: bodies)
    /\ ParseFromString (M := MsgHeader) data0 = Return hdr.

(** What the receiver does once the buffer is the complete frame [frm]. *)
Definition complete (frm : bytes) (w : World) : World :=
  match dispatch frm w with
  | (Return _, w) => with_receiver (RxRunning [] 0) w
  | (Raise e, w) => with_receiver (RxCrashed e) w
  | (Unfinished, w) => w
  end.

End WithLibs.
End Framing.

(** ** Requests and their replies *)

Module Calls.
Import Codec Client.

(** The session after a send that took the next id and wrote [written]. *)
Definition after_send (written : bytes) (w : World) : World :=
  with_wire (wire w ++ written)
    (with_client (with_cur_msg_id {| val := val (_cur_msg_id (client w)) + 1 |} (client w)) w).

(** During the waits of [env] the receiver's [select] only times out and
    nobody calls [disconnect]. *)
Definition only_timeouts (env : list (list EnvAction)) : Prop :=
  Forall (Forall (fun a => match a with
                           | EnvPass p => select_rds p = false /\ disconnect_in_select p = false
                           | EnvDisconnect => False
                           end)) env.

(** What the receiver thread leaves alone between [w] and [w']: the id
    counter, the bytes written, the connections opened and the timeout are
    the same, a stored API version stays, and no reply leaves the table. *)
Definition receiver_leaves (w w' : World) : Prop :=
  _cur_msg_id (client w') = _cur_msg_id (client w)
  /\ _timeout (client w') = _timeout (client w)
  /\ wire w' = wire w
  /\ opened w' = opened w
  /\ (notified w <= notified w')%nat
  /\ (forall v, _api_version (client w) = Some v -> _api_version (client w') = Some v)
  /\ (forall id, is_Some (_replies (client w) !! id) -> is_Some (_replies (client w') !! id)).

(** [wrapper_type(resp)] when the reply class has a wrapper, else [resp]. *)
Definition wrap (wrapper_type : option WrapperType) (resp : PbMsg) : Reply :=
  match wrapper_type with
  | Some wt => Wrapped wt resp
  | None => Plain resp
  end.


Section WithLibs.
Context {apiconsts : ApiConsts} {pb : ProtoLib}.

(** [replies[0] if replies else []]: the first reply, or [None] for the
    empty list. *)
Definition first_or_empty (replies : list Reply) : option Reply := head replies.

(** The body the five list calls of [Linstor] share: a request that is only
    a header with the tag of the call, the wait for its replies, and the
    first of them. *)
Definition list_call (api_call_type : string) (room : list nat)
    (env : list (list EnvAction)) (w : World) : PyResult (option Reply) * World :=
  match send_msgs (M := MsgHeader) api_call_type None room w with
  | (Return msg_id, w) =>
    match wait_for_result msg_id env w with
    | (Return replies, w) => (Return (first_or_empty replies), w)
    | (Raise e, w) => (Raise e, w)
    | (Unfinished, w) => (Unfinished, w)
    end
  | (Raise e, w) => (Raise e, w)
  | (Unfinished, w) => (Unfinished, w)
  end.



Definition node_list := list_call API_LST_NODE.
Definition storage_pool_dfn_list := list_call API_LST_STOR_POOL_DFN.
Definition storage_pool_list := list_call API_LST_STOR_POOL.
Definition resource_dfn_list := list_call API_LST_RSC_DFN.
Definition resource_list := list_call API_LST_RSC.

End WithLibs.
End Calls.

(** ** Sample peers *)

Module Peers.
Import Codec Client Wire Samples.

(** A peer that refuses the connection. *)
Definition refusing : Peer :=
  {| accepts_connection := false; accepts_tls := true; greeting := [] |}.





End Peers.

(** ** The volume definition commands *)

Module VolumeDefinitionCommands.
Import Client.

(** [linstor.utils.SizeCalc] and [linstor.consts.ExitCode] are missing from
    the sources.  What the commands use of them is a parameter: the dict
    [UNITS_MAP] as its items in the order of [keys()], the keys distinct;
    the unit [UNIT_kiB]; [convert_round_up]; the exit code
    [ARGPARSE_ERROR]. *)
Class SizeCalc := {
  Unit : Type;
  Unit_eq_dec :: EqDecision Unit;
  UNITS_MAP : list (string * Unit);
  UNIT_kiB : Unit;
  convert_round_up : Z -> Unit -> Unit -> Z;
  ARGPARSE_ERROR : Z;
}.

(** [\d] and [\D] on a byte string. *)
Definition is_digit (c : ascii) : bool := is_between 48 57 c.
Definition is_nondigit (c : ascii) : bool := negb (is_digit c).

(** The longest prefix of [s] whose characters satisfy [p], and the rest. *)
Fixpoint span (p : ascii -> bool) (s : string) : string * string :=
  match s with
  | EmptyString => (EmptyString, EmptyString)
  | String c s' =>
    if p c then let '(a, b) := span p s' in (String c a, b)
    else (EmptyString, s)
  end.

(** [re.match] with the pattern of [_get_volume_size] and [size_completer],
    a group of one or more [\d] followed by a group of any number of [\D]:
    groups 1 and 2, or [None] when [s] does not start with a digit.  Both
    groups are greedy, and what follows group 2 is not looked at. *)
Definition re_match (s : string) : option (string * string) :=
  let '(digits, rest) := span is_digit s in
  match digits with
  | EmptyString => None
  | _ => Some (digits, (span is_nondigit rest).1)
  end.

(** [int(digits)] for a string of decimal digits. *)
Definition int (digits : string) : Z :=
  fold_left (fun acc c => acc * 10 + (Z.of_nat (nat_of_ascii c) - 48))
            (list_ascii_of_string digits) 0.

(** [sys.exit(status)] after [stderr] has been written. *)
Record Exit := { stderr : string; status : Z }.

Definition dquote : string := String (ascii_of_nat 34) EmptyString.
Definition newline : string := String (ascii_of_nat 10) EmptyString.

Section WithSizeCalc.
Context {sizecalc : SizeCalc}.

(** [UNITS_MAP[key]], [None] for [KeyError]. *)
Fixpoint getitem (d : list (string * Unit)) (key : string) : option Unit :=
  match d with
  | [] => None
  | (k, v) :: d' => if String.eqb k key then Some v else getitem d' key
  end.

(** [_get_volume_size]. *)
Definition _get_volume_size (size_str : string) : Exit + Z :=
  match re_match size_str with
  | None =>
    inl {| stderr := "Size is not a valid number" ++ newline; status := ARGPARSE_ERROR |}
  | Some (group1, group2) =>
    let size := int group1 in
    let unit_str := if String.eqb group2 "" then "GiB"%string else group2 in
    match getitem UNITS_MAP (lower unit_str) with
    | None =>
      inl {| stderr := dquote ++ unit_str ++ dquote ++ " is not a valid unit!" ++ newline
                       ++ "Valid units: " ++ String.concat "," (map fst UNITS_MAP)
                       ++ newline;
             status := ARGPARSE_ERROR |}
    | Some unit =>
      inr (if decide (unit = UNIT_kiB) then size
           else convert_round_up size unit UNIT_kiB)
    end
  end.

(** [size_completer]: [m.group] on [None] raises [AttributeError]. *)
Definition size_completer (prefix : string) : PyResult (list string) :=
  let choices := map fst UNITS_MAP in
  match re_match prefix with
  | None => Raise AttributeError
  | Some (digits, unit) =>
    let p_units :=
      if negb (String.eqb unit "") then List.filter (fun x => String.prefix unit x) choices
      else choices in
    Return (map (fun u => digits ++ u)%string p_units)
  end.

End WithSizeCalc.

(** Every character of [s] satisfies [p]. *)
Fixpoint all_chars (p : ascii -> bool) (s : string) : bool :=
  match s with
  | EmptyString => true
  | String c s' => p c && all_chars p s'
  end.

(** [s] is empty or starts with a character that satisfies [p]. *)
Definition stops_at (p : ascii -> bool) (s : string) : bool :=
  match s with
  | EmptyString => true
  | String c _ => p c
  end.

(** A unit table to evaluate the commands on.  It has the two units the
    help text of [create] names, a unit being its number of bytes: sizes are
    kept in kibibytes, and the default unit is GiB, [2 ^ 30] bytes.
    Rounding up gives the smallest number of output units that holds the
    size. *)
Definition sample_sizecalc : SizeCalc := {|
  Unit := Z;
  UNITS_MAP := [("kib"%string, 2 ^ 10); ("gib"%string, 2 ^ 30)];
  UNIT_kiB := 2 ^ 10;
  convert_round_up size unit_in unit_out := (size * unit_in + unit_out - 1) / unit_out;
  ARGPARSE_ERROR := 2;
|}.

End VolumeDefinitionCommands.
(** * Properties *)

(** ** The return-code predicates *)

Module ResponseFacts.
Import Response.

Lemma land_eq_contains rc mask :
  (Z.land rc mask =? mask) = true <-> contains rc mask.
Proof.
  rewrite Z.eqb_eq. unfold contains. split.
  - intros H i Hi Hm.
    assert (Hb : Z.testbit (Z.land rc mask) i = Z.testbit mask i) by (rewrite H; reflexivity).
    rewrite Z.land_spec, Hm, andb_true_r in Hb. exact Hb.
  - intros H. apply Z.bits_inj'. intros i Hi.
    rewrite Z.land_spec.
    destruct (Z.testbit mask i) eqn:Hm.
    + rewrite (H i Hi Hm). reflexivity.
    + apply andb_false_r.
Qed.

Lemma all_ones_land mask :
  0 <= mask < 2 ^ 64 -> Z.land (2 ^ 64 - 1) mask = mask.
Proof.
  intros Hm.
  replace (2 ^ 64 - 1) with (Z.ones 64) by reflexivity.
  rewrite Z.land_comm, Z.land_ones by lia.
  apply Z.mod_small. lia.
Qed.

(** C5 as stated fails, whatever the three masks are: the 64-bit code with
    every bit set contains each of them, so [is_error], [is_warning] and
    [is_info] hold together. *)
Lemma classifier_not_exclusive :
  ~ exists k : ApiConsts, masks_64bit k /\
      forall rc, 0 <= rc < 2 ^ 64 ->
        exactly_one (is_error (of_ret_code rc)) (is_warning (of_ret_code rc))
                    (is_info (of_ret_code rc)) (is_success (of_ret_code rc)).
Proof.
  intros (k & (He & Hw & Hi) & H).
  specialize (H (2 ^ 64 - 1) ltac:(lia)).
  unfold is_success, is_error, is_warning, is_info, ret_code in H.
  cbn [of_ret_code _proto_msg ret_code_field] in H.
  rewrite !all_ones_land, !Z.eqb_refl in H by assumption.
  unfold exactly_one in H. simpl in H.
  destruct H as [H | [H | [H | H]]]; destruct H as (? & ? & ? & ?); discriminate.
Qed.

(** C5, amended: success is exactly the absence of error, warning and info, so
    at least one of the four predicates holds and success excludes the other
    three; error, warning and info are each decided on their own, by the code
    containing every bit of the mask, with no order among them. *)
Theorem classifier_success_is_absence (k : ApiConsts) (r : ApiCallResponse) :
  is_success r = negb (is_error r || is_warning r || is_info r)
  /\ (is_error r = true <-> contains (ret_code r) MASK_ERROR)
  /\ (is_warning r = true <-> contains (ret_code r) MASK_WARN)
  /\ (is_info r = true <-> contains (ret_code r) MASK_INFO)
  /\ (is_error r || is_warning r || is_info r || is_success r = true).
Proof.
  unfold is_success.
  repeat split; try apply land_eq_contains;
    destruct (is_error r), (is_warning r), (is_info r); reflexivity.
Qed.

(** With the disjoint sample masks, a code that has the bits of the error
    mask and of the warning mask is an error and a warning. *)
Example error_code_is_also_warning :
  let r := of_ret_code 0xC000000000000001 in
  @is_error sample_consts r = true /\ @is_warning sample_consts r = true
  /\ @is_info sample_consts r = false /\ @is_success sample_consts r = false.
Proof. repeat split. Qed.

End ResponseFacts.

(** ** The frame codec *)

Module CodecFacts.
Import Codec.

(** The varint loop ends within the ten groups it is given. *)
Lemma DecodeVarint_loop_finishes groups mask buffer result shift pos :
  shift < 64 <= shift + 7 * Z.of_nat groups ->
  DecodeVarint_loop groups mask buffer result shift pos <> Unfinished.
Proof.
  revert result shift pos.
  induction groups as [|g IH]; intros result shift pos Hs; [lia|].
  cbn [DecodeVarint_loop].
  destruct (buffer !! pos) as [b|]; [|discriminate].
  destruct (Z.land (byte_val b) 128 =? 0); [discriminate|].
  destruct (64 <=? shift + 7) eqn:Hge; [discriminate|].
  apply IH. apply Z.leb_gt in Hge. lia.
Qed.

Lemma _DecodeVarint32_finishes buffer pos : _DecodeVarint32 buffer pos <> Unfinished.
Proof. apply DecodeVarint_loop_finishes. lia. Qed.

(** A decoded varint ends inside the buffer, after at least one byte. *)
Lemma DecodeVarint_loop_advances groups mask buffer result shift pos v p :
  DecodeVarint_loop groups mask buffer result shift pos = Return (v, p) ->
  (pos < p <= length buffer)%nat.
Proof.
  revert result shift pos.
  induction groups as [|g IH]; intros result shift pos H; [discriminate|].
  cbn [DecodeVarint_loop] in H.
  destruct (buffer !! pos) as [b|] eqn:Hb; [|discriminate].
  apply lookup_lt_Some in Hb.
  destruct (Z.land (byte_val b) 128 =? 0).
  - injection H as _ <-. lia.
  - destruct (64 <=? shift + 7); [discriminate|].
    apply IH in H. lia.
Qed.

Lemma _DecodeVarint32_advances buffer pos v p :
  _DecodeVarint32 buffer pos = Return (v, p) -> (pos < p <= length buffer)%nat.
Proof. apply DecodeVarint_loop_advances. Qed.

(** A varint that runs off the end of the buffer makes the decoder raise. *)
Lemma DecodeVarint_loop_runs_off groups mask buffer result shift pos :
  shift < 64 <= shift + 7 * Z.of_nat groups ->
  runs_off_end buffer pos = true ->
  exists e, DecodeVarint_loop groups mask buffer result shift pos = Raise e.
Proof.
  revert result shift pos.
  induction groups as [|g IH]; intros result shift pos Hs Hoff; [lia|].
  cbn [DecodeVarint_loop].
  destruct (buffer !! pos) as [b|] eqn:Hb; [|eauto].
  unfold runs_off_end in Hoff.
  rewrite (drop_S _ _ _ Hb) in Hoff. cbn [forallb] in Hoff.
  apply andb_prop in Hoff as [Hbit Hrest].
  apply negb_true_iff in Hbit. rewrite Hbit.
  destruct (64 <=? shift + 7) eqn:Hge; [eauto|].
  apply IH; [apply Z.leb_gt in Hge; lia | exact Hrest].
Qed.

(** More fuel than the buffer has bytes left changes nothing. *)
Lemma split_loop_fuel payload : forall fuel1 fuel2 n pb_msgs,
  (length payload <= fuel1 + n)%nat -> (length payload <= fuel2 + n)%nat ->
  split_loop fuel1 payload n pb_msgs = split_loop fuel2 payload n pb_msgs.
Proof.
  induction fuel1 as [|f1 IH]; intros fuel2 n pb_msgs H1 H2.
  - destruct fuel2; cbn [split_loop];
      destruct (Nat.ltb_spec n (length payload)); try reflexivity; lia.
  - destruct fuel2 as [|f2]; cbn [split_loop];
      destruct (Nat.ltb_spec n (length payload)); try reflexivity; try lia.
    destruct (_DecodeVarint32 payload n) as [[v p]| |] eqn:Hd; try reflexivity.
    cbn. apply _DecodeVarint32_advances in Hd.
    apply IH; lia.
Qed.

(** Past the end of the buffer the loop is over. *)
Lemma split_loop_done fuel payload n pb_msgs :
  (length payload <= n)%nat -> split_loop fuel payload n pb_msgs = Return pb_msgs.
Proof.
  intros Hn. destruct fuel; cbn [split_loop];
    destruct (Nat.ltb_spec n (length payload)); try reflexivity; lia.
Qed.

(** [_split_proto_msgs] always finishes: it returns or it raises. *)
Lemma split_loop_finishes payload : forall fuel n pb_msgs,
  (length payload <= fuel + n)%nat ->
  split_loop fuel payload n pb_msgs <> Unfinished.
Proof.
  induction fuel as [|f IH]; intros n pb_msgs Hf; cbn [split_loop];
    destruct (Nat.ltb_spec n (length payload)); try discriminate; try lia.
  destruct (_DecodeVarint32 payload n) as [[v p]| |] eqn:Hd; cbn.
  - apply _DecodeVarint32_advances in Hd. apply IH. lia.
  - discriminate.
  - exfalso. exact (_DecodeVarint32_finishes _ _ Hd).
Qed.

Lemma _split_proto_msgs_finishes payload : _split_proto_msgs payload <> Unfinished.
Proof. apply split_loop_finishes. lia. Qed.

(** From a position the scan visits, the loop goes on as from the start. *)
Lemma split_loop_scans payload n pb_msgs :
  scans payload n pb_msgs ->
  forall fuel, (length payload <= fuel + n)%nat ->
  _split_proto_msgs payload = split_loop fuel payload n pb_msgs.
Proof.
  induction 1 as [|n pb_msgs msg_len new_pos Hsc IH Hn Hd]; intros fuel Hf.
  - apply split_loop_fuel; lia.
  - pose proof (_DecodeVarint32_advances _ _ _ _ Hd) as Hadv.
    rewrite (IH (S (fuel + length payload))) by lia.
    cbn [split_loop].
    destruct (Nat.ltb_spec n (length payload)); [|lia].
    rewrite Hd. cbn.
    apply split_loop_fuel; lia.
Qed.

(** The encoder's loop ends within the fuel [_VarintBytes] gives it: more
    fuel changes nothing. *)
Lemma EncodeVarint_loop_fuel : forall fuel1 fuel2 bits value,
  0 <= value < 2 ^ (7 * Z.of_nat fuel1) ->
  0 <= value < 2 ^ (7 * Z.of_nat fuel2) ->
  EncodeVarint_loop fuel1 bits value = EncodeVarint_loop fuel2 bits value.
Proof.
  assert (Hshift : forall value k, 0 <= value < 2 ^ (7 * Z.of_nat (S k)) ->
            0 <= Z.shiftr value 7 < 2 ^ (7 * Z.of_nat k)).
  { intros value k Hv. rewrite Z.shiftr_div_pow2 by lia.
    replace (7 * Z.of_nat (S k)) with (7 * Z.of_nat k + 7) in Hv by lia.
    rewrite Z.pow_add_r in Hv by lia.
    split; [apply Z.div_pos; lia|].
    apply Z.div_lt_upper_bound; lia. }
  induction fuel1 as [|f1 IH]; intros fuel2 bits value H1 H2.
  - cbn in H1. assert (value = 0) as -> by lia.
    destruct fuel2; reflexivity.
  - destruct fuel2 as [|f2].
    + cbn in H2. assert (value = 0) as -> by lia. reflexivity.
    + cbn [EncodeVarint_loop]. destruct (value =? 0); [reflexivity|].
      f_equal. apply IH; by apply Hshift.
Qed.

Lemma _VarintBytes_fuel value fuel :
  0 <= value -> (Z.to_nat (Z.log2 value) <= fuel)%nat ->
  _VarintBytes value = EncodeVarint_loop fuel (Z.land value 0x7f) (Z.shiftr value 7).
Proof.
  intros Hv Hfuel. unfold _VarintBytes.
  assert (Hbound : forall k, (Z.to_nat (Z.log2 value) <= k)%nat ->
            0 <= Z.shiftr value 7 < 2 ^ (7 * Z.of_nat k)).
  { intros k Hk. rewrite Z.shiftr_div_pow2 by lia.
    split; [apply Z.div_pos; lia|].
    apply Z.div_lt_upper_bound; [lia|].
    destruct (Z.eq_dec value 0) as [->|Hne].
    - pose proof (Z.pow_pos_nonneg 2 (7 * Z.of_nat k)). lia.
    - pose proof (Z.log2_spec value ltac:(lia)) as [_ Hlt].
      pose proof (Z.log2_nonneg value).
      eapply Z.lt_le_trans; [exact Hlt|].
      rewrite <- Z.pow_add_r by lia.
      apply Z.pow_le_mono_r; lia. }
  apply EncodeVarint_loop_fuel; apply Hbound; lia.
Qed.

(** C4 as stated fails: the buffer [05 41] announces a sub-message of five
    bytes and holds one; the split returns that one byte as a sub-message and
    does not fail. *)
Lemma split_returns_truncated_message :
  _DecodeVarint32 [x05; x41] 0 = Return (5, 1%nat)
  /\ _split_proto_msgs [x05; x41] = Return [[x41]].
Proof. split; reflexivity. Qed.

(** C4, amended: at a position the scan reaches inside the buffer, (a) an
    error of the varint decoder is the error of the split, and a varint that
    runs off the end of the buffer is such an error; (b) a declared length
    that exceeds the remaining bytes is not detected: the split returns, its
    last sub-message being the shorter rest of the buffer, and the final
    position is not compared with the buffer length. *)
Theorem split_fails_only_on_varint (payload : bytes) (n : nat) (pb_msgs : list bytes) :
  scans payload n pb_msgs -> (n < length payload)%nat ->
  (forall e, _DecodeVarint32 payload n = Raise e -> _split_proto_msgs payload = Raise e)
  /\ (runs_off_end payload n = true -> exists e, _split_proto_msgs payload = Raise e)
  /\ (forall msg_len new_pos,
        _DecodeVarint32 payload n = Return (msg_len, new_pos) ->
        (length payload < new_pos + Z.to_nat msg_len)%nat ->
        _split_proto_msgs payload = Return (pb_msgs ++ [drop new_pos payload])
        /\ (length (drop new_pos payload) < Z.to_nat msg_len)%nat).
Proof.
  intros Hsc Hn.
  assert (Hstep : _split_proto_msgs payload = split_loop (S (length payload)) payload n pb_msgs)
    by (apply split_loop_scans; [exact Hsc | lia]).
  cbn [split_loop] in Hstep.
  destruct (Nat.ltb_spec n (length payload)); [|lia].
  split; [|split].
  - intros e He. rewrite Hstep, He. reflexivity.
  - intros Hoff.
    destruct (DecodeVarint_loop_runs_off 10 (2 ^ 32 - 1) payload 0 0 n ltac:(lia) Hoff)
      as [e He].
    exists e. rewrite Hstep. unfold _DecodeVarint32. rewrite He. reflexivity.
  - intros msg_len new_pos Hd Hlong.
    pose proof (_DecodeVarint32_advances _ _ _ _ Hd) as Hadv.
    rewrite Hstep, Hd. cbn.
    rewrite split_loop_done by lia.
    rewrite length_drop.
    split; [|lia].
    rewrite take_ge by (rewrite length_drop; lia).
    reflexivity.
Qed.

(** The theorem at the buffer [01 41 05 42]: the scan reaches position 2,
    where five bytes are announced and one is left. *)
Lemma split_fails_only_on_varint_witness :
  _split_proto_msgs [x01; x41; x05; x42] = Return ([[x41]] ++ [drop 3 [x01; x41; x05; x42]])
  /\ (length (drop 3 [x01; x41; x05; x42]) < Z.to_nat 5)%nat.
Proof.
  assert (Hsc : scans [x01; x41; x05; x42] 2 [[x41]]).
  { apply (scans_next [x01; x41; x05; x42] 0 [] 1 1).
    - apply scans_start.
    - simpl. lia.
    - reflexivity. }
  assert (Hn : (2 < length [x01; x41; x05; x42])%nat) by (simpl; lia).
  destruct (split_fails_only_on_varint [x01; x41; x05; x42] 2 [[x41]] Hsc Hn)
    as (_ & _ & H).
  apply (H 5 3%nat).
  - reflexivity.
  - simpl. lia.
Defined.

(** A varint cut by the end of the buffer: the split raises. *)
Example split_raises_on_cut_varint :
  _split_proto_msgs [x01; x41; x80] = Raise IndexError.
Proof. reflexivity. Qed.

End CodecFacts.

(** ** The receiver loop *)

Module ReceiverFacts.
Import Codec Client.

Section WithLibs.
Context {apiconsts : ApiConsts} {pb : ProtoLib}.

Lemma _parse_api_version_effect data w r w' :
  _parse_api_version data w = (r, w') ->
  _socket (client w') = _socket (client w)
  /\ _replies (client w') = _replies (client w)
  /\ notified w' = notified w
  /\ receiver w' = receiver w.
Proof.
  unfold _parse_api_version. intros H.
  destruct (ParseFromString data) as [msg| |]; [|by simplify_eq..].
  destruct (_api_version (client w)); by simplify_eq.
Qed.

(** What dispatching a package can do to the session: the socket and the
    receiver's own status stay as they are, and either nobody is notified and
    the reply table is unchanged, or a reply list is deposited and the
    waiters are notified once. *)
Lemma dispatch_effect package w r w' :
  dispatch package w = (r, w') ->
  _socket (client w') = _socket (client w)
  /\ receiver w' = receiver w
  /\ ((notified w' = notified w /\ _replies (client w') = _replies (client w))
      \/ (r = Return tt /\ notified w' = S (notified w)
          /\ exists id replies, _replies (client w') = <[id := replies]> (_replies (client w)))).
Proof.
  unfold dispatch. intros H.
  repeat (case_match; simplify_eq; try by auto).
  - match goal with Hv : _parse_api_version _ _ = _ |- _ =>
      apply _parse_api_version_effect in Hv as (? & ? & ? & ?) end.
    auto.
  - match goal with Hv : _parse_api_version _ _ = _ |- _ =>
      apply _parse_api_version_effect in Hv as (? & ? & ? & ?) end.
    auto.
  - match goal with Hv : _parse_api_version _ _ = _ |- _ =>
      apply _parse_api_version_effect in Hv as (? & ? & ? & ?) end.
    auto.
  - cbn. split; [done|]. split; [done|]. right. eauto.
Qed.

(** The same for everything the receiver does with the bytes of one [recv]. *)
Lemma receive_effect read package exp_pkg_len w :
  let w' := receive read package exp_pkg_len w in
  _socket (client w') = _socket (client w)
  /\ (receiver w' = RxExited -> receiver w = RxExited)
  /\ ((notified w' = notified w /\ _replies (client w') = _replies (client w))
      \/ (notified w' = S (notified w)
          /\ exists id replies, _replies (client w') = <[id := replies]> (_replies (client w)))).
Proof.
  unfold receive. cbv zeta.
  repeat (case_match; simplify_eq; try by auto);
    try match goal with Hd : dispatch _ _ = _ |- _ =>
      apply dispatch_effect in Hd as (? & ? & [[? ?]|(? & ? & ?)]) end;
    cbn; repeat split; try discriminate; try congruence; auto.
Qed.

(** With more bytes in the buffer than the frame it announces, the receiver
    only appends what it reads. *)
Lemma receive_overfull read package exp_pkg_len w :
  exp_pkg_len <> 0 ->
  exp_pkg_len + 16 < Z.of_nat (length package) ->
  receive read package exp_pkg_len w
  = with_receiver (RxRunning (package ++ read) exp_pkg_len) w.
Proof.
  intros Hexp Hlen. unfold receive. cbv zeta.
  destruct (Z.eqb_spec exp_pkg_len 0) as [|_]; [done|].
  rewrite andb_false_r. cbn [negb andb].
  destruct (Z.eqb_spec (Z.of_nat (length (package ++ read))) (exp_pkg_len + 16)) as [Heq|];
    [|by rewrite andb_false_r].
  rewrite length_app in Heq. lia.
Qed.

(** An overfull buffer stays overfull: whatever is read later, nothing is
    dispatched any more. *)
Lemma run_overfull (later : list bytes) : forall w package exp_pkg_len,
  receiver w = RxRunning package exp_pkg_len ->
  _socket (client w) <> None ->
  exp_pkg_len <> 0 ->
  exp_pkg_len + 16 < Z.of_nat (length package) ->
  let w' := run (map reads later) w in
  receiver w' = RxRunning (package ++ concat later) exp_pkg_len
  /\ client w' = client w /\ notified w' = notified w /\ logged w' = logged w.
Proof.
  induction later as [|read later IH]; intros w package exp_pkg_len Hrx Hsock Hexp Hlen.
  - cbn. rewrite app_nil_r. done.
  - cbn [map run foldl concat].
    assert (Hpass : run_pass (reads read) w
                    = with_receiver (RxRunning (package ++ read) exp_pkg_len) w).
    { unfold run_pass. rewrite Hrx.
      destruct (_socket (client w)) as [s|] eqn:Hs; [|done].
      cbn. rewrite Hs. by apply receive_overfull. }
    rewrite Hpass.
    destruct (IH (with_receiver (RxRunning (package ++ read) exp_pkg_len) w)
                 (package ++ read) exp_pkg_len) as (H1 & H2 & H3 & H4);
      [done | done | done | rewrite length_app; lia |].
    unfold run in H1, H2, H3, H4. rewrite H1, H2, H3, H4, <- app_assoc. done.
Qed.

End WithLibs.

Import Wire Samples.
#[local] Existing Instance sample_consts.
#[local] Existing Instance sample_proto.

(** The sample session is connected, past the handshake, with the receiver
    at the start of its loop. *)
Example session_is_connected :
  connected session = true /\ _api_version (client session) = Some 1
  /\ receiver session = RxRunning [] 0 /\ _replies (client session) = ∅.
Proof. repeat split. Qed.

(** Frames that arrive one per [recv], or cut anywhere inside a frame, are
    dispatched. *)
Example separate_frames_are_dispatched :
  let w := run [reads (take 5 reply1); reads (drop 5 reply1); reads reply2] session in
  _replies (client w) !! 1 = Some [Plain {| pb_class := MsgLstNode_cls; pb_wire := [x01; x02] |}]
  /\ _replies (client w) !! 2 = Some [Plain {| pb_class := MsgLstNode_cls; pb_wire := [x01; x02] |}]
  /\ notified w = 2%nat /\ receiver w = RxRunning [] 0.
Proof. vm_compute. repeat split. Qed.

(** C1 at a failing input: one [recv] delivers the complete frame [reply1]
    (16 + 20 bytes) and the first five bytes of [reply2].  No frame is
    extracted, then or after any later reads: the reply table stays empty,
    nobody is notified, and the receiver keeps every byte in its buffer. *)
Theorem coalesced_frames_are_never_dispatched (later : list bytes) :
  let w := run (reads (reply1 ++ take 5 reply2) :: map reads later) session in
  _replies (client w) = ∅
  /\ notified w = 0%nat
  /\ receiver w = RxRunning (reply1 ++ take 5 reply2 ++ concat later) 20.
Proof.
  cbv zeta. cbn [run foldl].
  set (w1 := run_pass (reads (reply1 ++ take 5 reply2)) session).
  assert (Hw1 : receiver w1 = RxRunning (reply1 ++ take 5 reply2) 20
                /\ client w1 = client session /\ notified w1 = 0%nat).
  { vm_compute. repeat split. }
  destruct Hw1 as (Hrx & Hc & Hn).
  destruct (run_overfull later w1 (reply1 ++ take 5 reply2) 20 Hrx) as (H1 & H2 & H3 & _).
  - rewrite Hc. discriminate.
  - lia.
  - vm_compute. reflexivity.
  - unfold run in H1, H2, H3. rewrite H1, H2, H3, Hc, Hn, <- app_assoc. done.
Qed.

End ReceiverFacts.

(** ** Disconnection, end of stream and errors in the receiver *)

Module SessionFacts.
Import Codec Client.

Section WithLibs.
Context {apiconsts : ApiConsts} {pb : ProtoLib}.

(** A receiver thread that is over does nothing any more. *)
Lemma run_pass_not_running p w :
  (forall package exp_pkg_len, receiver w <> RxRunning package exp_pkg_len) ->
  run_pass p w = w.
Proof.
  intros H. unfold run_pass. destruct (receiver w); try done.
  by destruct (H package exp_pkg_len).
Qed.

(** While the session is connected, nothing is deposited for [msg_id] and the
    receiver thread is dead, a caller of [wait_for_result] stays blocked
    through any number of waits. *)
Lemma wait_for_result_blocked msg_id w :
  (forall package exp_pkg_len, receiver w <> RxRunning package exp_pkg_len) ->
  connected w = true ->
  _replies (client w) !! msg_id = None ->
  forall env, only_passes env -> wait_for_result msg_id env w = (Unfinished, w).
Proof.
  intros Hrx Hconn Hrep env. induction env as [|actions env IH]; intros Hp.
  - cbn. by rewrite Hrep, Hconn.
  - cbn [wait_for_result]. rewrite Hrep, Hconn. cbn [negb].
    apply Forall_cons in Hp as [Hact Hp].
    assert (Hsame : foldl env_step w actions = w).
    { clear IH Hp. induction actions as [|a actions IHa]; [done|].
      apply Forall_cons in Hact as [Ha Hact]. cbn [foldl].
      destruct a as [p|]; [|done]. cbn [env_step].
      rewrite run_pass_not_running by done. by apply IHa. }
    rewrite Hsame. by apply IH.
Qed.

Lemma run_pass_running (w0 : World) (package : bytes) (exp_pkg_len : Z)
    (sel : bool) (r : RecvResult) (msg_id : Z) (env : list (list EnvAction)) :
  receiver w0 = RxRunning package exp_pkg_len ->
  let p := {| select_rds := sel; disconnect_in_select := false; recv_result := r |} in
  _socket (client (run_pass p w0)) = _socket (client w0)
  /\ (receiver (run_pass p w0) = RxExited <-> _socket (client w0) = None)
  /\ (_socket (client w0) = None -> run_pass p w0 = with_receiver RxExited w0)
  /\ (_socket (client w0) <> None ->
      run_pass {| select_rds := true; disconnect_in_select := false;
                  recv_result := RecvRaises |} w0
      = with_receiver (RxCrashed SocketError) w0)
  /\ (_socket (client w0) <> None ->
      ((length package < 16)%nat /\ exp_pkg_len = 0)
      \/ (exp_pkg_len <> 0 /\ Z.of_nat (length package) <> exp_pkg_len + 16) ->
      run_pass (reads []) w0 = with_receiver (RxRunning package exp_pkg_len) w0)
  /\ (notified (run_pass p w0) = notified w0
      \/ (notified (run_pass p w0) = S (notified w0)
          /\ exists id replies,
               _replies (client (run_pass p w0)) = <[id := replies]> (_replies (client w0))))
  /\ (_socket (client w0) = None -> _replies (client w0) !! msg_id = None ->
      wait_for_result msg_id env w0 = (Return [], w0)).
Proof.
  intros Hrx. cbv zeta.
  pose proof (ReceiverFacts.receive_effect) as receive_effect.
  split; [|split; [split|split; [|split; [|split; [|split]]]]].
  - unfold run_pass. rewrite Hrx. cbn [select_rds disconnect_in_select recv_result].
    destruct (_socket (client w0)) eqn:Hs; [|done].
    destruct sel; [|done]. try rewrite Hs.
    destruct r as [read|]; [|done].
    destruct (receive_effect read package exp_pkg_len w0) as (He & _).
    cbv zeta in He. by rewrite He.
  - unfold run_pass. rewrite Hrx. cbn [select_rds disconnect_in_select recv_result].
    destruct (_socket (client w0)) eqn:Hs; [|done].
    destruct sel; [|by rewrite Hrx]. try rewrite Hs.
    destruct r as [read|]; [|done].
    destruct (receive_effect read package exp_pkg_len w0) as (_ & He & _).
    intros H. apply He in H. by rewrite Hrx in H.
  - intros Hs. unfold run_pass. by rewrite Hrx, Hs.
  - intros Hs. unfold run_pass. by rewrite Hrx, Hs.
  - intros Hs. unfold run_pass. rewrite Hrx.
    cbn [select_rds disconnect_in_select recv_result].
    by destruct (_socket (client w0)).
  - intros Hs Hbuf. unfold run_pass. rewrite Hrx.
    cbn [reads select_rds disconnect_in_select recv_result].
    destruct (_socket (client w0)); [|done].
    unfold receive. cbv zeta. rewrite app_nil_r.
    destruct Hbuf as [[Hlen ->]|[Hexp Hlen]].
    + destruct (Z.ltb_spec 15 (Z.of_nat (length package))); [lia|]. done.
    + destruct (Z.eqb_spec exp_pkg_len 0); [done|].
      rewrite andb_false_r.
      destruct (Z.eqb_spec (Z.of_nat (length package)) (exp_pkg_len + 16)); [done|].
      by rewrite andb_false_r.
  - unfold run_pass. rewrite Hrx. cbn [select_rds disconnect_in_select recv_result].
    destruct (_socket (client w0)) eqn:Hs; [|by left].
    destruct sel; [|by left]. try rewrite Hs.
    destruct r as [read|]; [|by left].
    destruct (receive_effect read package exp_pkg_len w0) as (_ & _ & Hn).
    destruct Hn as [[Hn _]|Hn]; [by left|by right].
  - intros Hs Hrep.
    destruct env; cbn [wait_for_result]; unfold connected; by rewrite Hrep, Hs.
Qed.

(** C3, amended: the receiver task leaves its loop exactly when it finds the
    session socket already none, as [disconnect] sets it; it never sets the
    socket to none itself, and it notifies the reply condition only when it
    deposits a reply.  On a [socket.error] from [recv] the thread dies with
    the socket still set; at end of stream (an empty read) with no complete
    frame buffered it keeps looping and nothing changes.  Once the socket is
    none, a caller of [wait_for_result] whose reply is missing returns the
    empty list at its next look. *)
Theorem receiver_never_clears_socket (w : World) (package : bytes) (exp_pkg_len : Z)
    (sel : bool) (r : RecvResult) (msg_id : Z) (env : list (list EnvAction)) :
  let w0 := with_receiver (RxRunning package exp_pkg_len) w in
  let p := {| select_rds := sel; disconnect_in_select := false; recv_result := r |} in
  _socket (client (run_pass p w0)) = _socket (client w0)
  /\ (receiver (run_pass p w0) = RxExited <-> _socket (client w0) = None)
  /\ (_socket (client w0) = None -> run_pass p w0 = with_receiver RxExited w0)
  /\ (_socket (client w0) <> None ->
      run_pass {| select_rds := true; disconnect_in_select := false;
                  recv_result := RecvRaises |} w0
      = with_receiver (RxCrashed SocketError) w0)
  /\ (_socket (client w0) <> None ->
      ((length package < 16)%nat /\ exp_pkg_len = 0)
      \/ (exp_pkg_len <> 0 /\ Z.of_nat (length package) <> exp_pkg_len + 16) ->
      run_pass (reads []) w0 = w0)
  /\ (notified (run_pass p w0) = notified w0
      \/ (notified (run_pass p w0) = S (notified w0)
          /\ exists id replies,
               _replies (client (run_pass p w0)) = <[id := replies]> (_replies (client w0))))
  /\ (_socket (client w0) = None -> _replies (client w0) !! msg_id = None ->
      wait_for_result msg_id env w0 = (Return [], w0)).
Proof.
  cbv zeta.
  exact (run_pass_running (with_receiver (RxRunning package exp_pkg_len) w)
           package exp_pkg_len sel r msg_id env eq_refl).
Qed.

(** C9, amended: a frame with the [API_VERSION] tag that arrives after the
    handshake makes the receiver log a warning and fail its assertion, which
    ends the receiver thread.  The frame is not processed as a reply: nothing
    is deposited and nobody is notified.  The session object is left as it
    was: the socket stays set and [connected] stays true, and a caller
    waiting for a reply stays blocked for as long as nobody calls
    [disconnect]. *)
Theorem version_frame_after_handshake (w : World) (package read : bytes)
    (exp_pkg_len v : Z) :
  receiver w = RxRunning package exp_pkg_len ->
  connected w = true ->
  _api_version (client w) = Some v ->
  completes_version_frame package read exp_pkg_len ->
  let w' := run_pass (reads read) w in
  receiver w' = RxCrashed AssertionError
  /\ client w' = client w
  /\ connected w' = true
  /\ notified w' = notified w
  /\ logged w' = logged w ++ [LogWarning "API version message already received."]
  /\ (forall msg_id env,
        _replies (client w) !! msg_id = None -> only_passes env ->
        wait_for_result msg_id env w' = (Unfinished, w')).
Proof.
  intros Hrx Hconn Hver (N & msgs & data0 & data1 & hdr & msg &
                         HN & HN0 & Hlen & Hexp & Hsplit & H0 & Hhdr & Htag & H1 & Hmsg).
  assert (Hpass : run_pass (reads read) w
                  = with_receiver (RxCrashed AssertionError)
                      (log (LogWarning "API version message already received.") w)).
  { unfold run_pass, connected in *. rewrite Hrx.
    destruct (_socket (client w)) eqn:Hs; [|done]. cbn. rewrite Hs.
    unfold receive. cbv zeta.
    assert (Hexp' : (if (15 <? Z.of_nat (length (package ++ read))) && (exp_pkg_len =? 0)
                     then _parse_payload_length (take 16 (package ++ read))
                     else Return exp_pkg_len) = Return N).
    { destruct Hexp as [-> | ->].
      - destruct (Z.ltb_spec 15 (Z.of_nat (length (package ++ read)))) as [_|Hs15]; [done|].
        unfold _parse_payload_length in HN.
        destruct (Nat.eqb_spec 16 (length (take 16 (package ++ read)))) as [H16|];
          [|done].
        rewrite length_take in H16. lia.
      - destruct (Z.eqb_spec N 0); [done|]. by rewrite andb_false_r. }
    rewrite Hexp'.
    destruct (Z.eqb_spec N 0); [done|].
    rewrite Hlen, Z.eqb_refl. cbn [negb andb].
    unfold dispatch. rewrite Hsplit.
    assert (Hne : (0 <? length msgs)%nat = true).
    { apply Nat.ltb_lt. apply lookup_lt_Some in H0. lia. }
    rewrite Hne. cbn [py_assert]. rewrite H0. cbn. rewrite Hhdr, Htag, String.eqb_refl, H1.
    unfold _parse_api_version. rewrite Hmsg, Hver. done. }
  cbv zeta. rewrite Hpass.
  repeat split; try done.
  intros msg_id env Hrep Henv.
  apply wait_for_result_blocked; done.
Qed.

End WithLibs.

Import Wire Samples.
#[local] Existing Instance sample_consts.
#[local] Existing Instance sample_proto.

(** C3 as stated fails on the sample session.  After three empty reads (end
    of stream) the receiver still loops, the socket is set, [connected] is
    true and nobody was notified.  After a [socket.error] from [recv] the
    thread is dead with the socket set and [connected] true, and a caller of
    [wait_for_result] is still blocked after three waits. *)
Lemma receiver_ignores_eof_and_io_error :
  (let w := run [reads []; reads []; reads []] session in
   connected w = true /\ receiver w = RxRunning [] 0 /\ notified w = 0%nat)
  /\ (let w := run [recv_fails] session in
      connected w = true /\ receiver w = RxCrashed SocketError /\ notified w = 0%nat)
  /\ (wait_for_result 1 [[EnvPass recv_fails]; [EnvPass timeout]; [EnvPass timeout]]
        session).1 = Unfinished.
Proof. vm_compute. repeat split. Qed.

(** C9 as stated fails on the sample session: after the [API_VERSION] frame
    the receiver thread is dead, but the session is still connected, nobody
    was notified, and a caller waiting for reply 1 stays blocked, also when
    that reply arrives on the socket later. *)
Lemma version_frame_leaves_session_connected :
  let w := run [reads version_frame] session in
  receiver w = RxCrashed AssertionError
  /\ connected w = true
  /\ notified w = 0%nat
  /\ (wait_for_result 1 [[EnvPass timeout]; [EnvPass (reads reply1)]; [EnvPass timeout]]
        w).1 = Unfinished.
Proof. vm_compute. repeat split. Qed.

(** The theorem on the sample session, the whole frame arriving in one read. *)
Lemma version_frame_after_handshake_witness :
  let w' := run_pass (reads version_frame) session in
  receiver w' = RxCrashed AssertionError
  /\ client w' = client session
  /\ connected w' = true
  /\ notified w' = notified session
  /\ logged w' = logged session ++ [LogWarning "API version message already received."]
  /\ (forall msg_id env,
        _replies (client session) !! msg_id = None -> only_passes env ->
        wait_for_result msg_id env w' = (Unfinished, w')).
Proof.
  apply (version_frame_after_handshake session [] version_frame 0 1).
  - reflexivity.
  - reflexivity.
  - reflexivity.
  - exists 19, [drop 17 (take 32 version_frame); drop 33 version_frame],
      (drop 17 (take 32 version_frame)), (drop 33 version_frame),
      {| api_call := "API_VERSION"; msg_id := 0 |}, {| version := 1 |}.
    vm_compute. repeat split; try reflexivity; try discriminate. by left.
Defined.

End SessionFacts.

(** ** Sending *)

Module SendFacts.
Import Codec Client.

Section WithLibs.
Context {apiconsts : ApiConsts} {pb : ProtoLib}.

(** The write loop of [send_msgs] always ends: every [send] that does not
    raise accepts at least one byte. *)
Lemma send_loop_finishes full_msg : forall fuel sent room w,
  (length full_msg <= fuel + sent)%nat ->
  (send_loop fuel full_msg (length full_msg) sent room w).1 <> Unfinished.
Proof.
  induction fuel as [|fuel IH]; intros sent room w Hfuel; cbn [send_loop];
    destruct (Nat.ltb_spec sent (length full_msg)); try done; try lia.
  destruct (_socket (client w)); [|done].
  destruct (Nat.eqb_spec (hd (length full_msg) room) 0); [done|].
  apply IH. lia.
Qed.

(** A socket that takes the whole frame at once gets it once. *)
Lemma send_loop_whole full_msg w s :
  _socket (client w) = Some s ->
  send_loop (length full_msg) full_msg (length full_msg) 0 [] w
  = (Return tt, if Nat.eqb (length full_msg) 0 then w
                else with_wire (wire w ++ full_msg) w).
Proof.
  intros Hs. destruct full_msg as [|b full_msg]; [done|].
  cbn [length send_loop Nat.ltb Nat.leb hd tl Nat.eqb]. rewrite Hs.
  rewrite Nat.min_id, Nat.add_0_l. cbn [with_wire client].
  change (S (length full_msg)) with (length (b :: full_msg)).
  rewrite firstn_all.
  destruct (length full_msg); cbn [send_loop]; by rewrite Nat.ltb_irrefl.
Qed.

(** The frame has the 16 bytes of the outer header and then the payload whose
    length the header announces. *)
Lemma encode_frame_length hdr_msg bodies full_msg :
  encode_frame hdr_msg bodies = Return full_msg ->
  _parse_payload_length (take 16 full_msg) = Return (Z.of_nat (length full_msg) - 16).
Proof.
  unfold encode_frame. cbv zeta.
  set (payload := fold_left _ bodies _).
  unfold pack_I.
  destruct (Z.leb_spec 0 (Z.of_nat (length payload))); [|lia].
  destruct (Z.ltb_spec (Z.of_nat (length payload)) (2 ^ 32)) as [Hlt|]; [|done].
  cbn [andb mbind PyResult_bind]. intros [= <-].
  set (n := Z.of_nat (length payload)) in *.
  unfold _parse_payload_length, pack_Q_zero. simpl.
  f_equal.
  replace (Z.of_nat (S (S (S (S (S (S (S (S (S (S (S (S (S (S (S (S (length payload)))))))))))))))))
            - 16)
    with n by lia.
  unfold unpack_I. cbn [fold_left].
  assert (Hb : forall z, byte_val (byte_of z) = z mod 256).
  { intros z. unfold byte_val, byte_of.
    pose proof (Z.mod_pos_bound z 256 ltac:(lia)) as Hz.
    destruct (Byte.of_N (Z.to_N (z mod 256))) as [b|] eqn:Hof.
    - apply Byte.to_of_N in Hof. rewrite Hof. lia.
    - apply Byte.of_N_None_iff in Hof. lia. }
  rewrite !Hb, !Z.shiftr_div_pow2 by lia.
  change (2 ^ 24) with 16777216. change (2 ^ 16) with 65536. change (2 ^ 8) with 256.
  change (2 ^ 32) with 4294967296 in Hlt.
  fold n.
  replace (n / 16777216) with (n / 256 / 256 / 256)
    by (rewrite !Z.div_div by lia; reflexivity).
  replace (n / 65536) with (n / 256 / 256) by (rewrite Z.div_div by lia; reflexivity).
  pose proof (Z.div_mod n 256 ltac:(lia)).
  pose proof (Z.div_mod (n / 256) 256 ltac:(lia)).
  pose proof (Z.div_mod (n / 256 / 256) 256 ltac:(lia)).
  assert (n / 256 / 256 / 256 < 256).
  { repeat (apply Z.div_lt_upper_bound; [lia|]). lia. }
  assert (0 <= n / 256 / 256 / 256) by (repeat (apply Z.div_pos; [|lia]); lia).
  rewrite (Z.mod_small (n / 256 / 256 / 256)) by lia.
  lia.
Qed.

(** Without a short write, [send_msgs] on a connected session puts exactly
    the encoded frame on the wire, once, and returns the id it took. *)
Lemma send_msgs_whole {M} `{Serialize M} api_call_type (msgs : option (list M)) w s full_msg :
  _socket (client w) = Some s ->
  encode_frame {| api_call := api_call_type; msg_id := val (_cur_msg_id (client w)) |}
               (map SerializeToString (default [] msgs)) = Return full_msg ->
  let '(r, w') := send_msgs api_call_type msgs [] w in
  r = Return (val (_cur_msg_id (client w)))
  /\ wire w' = wire w ++ full_msg
  /\ val (_cur_msg_id (client w')) = val (_cur_msg_id (client w)) + 1.
Proof.
  intros Hs Henc. unfold send_msgs, get_and_inc.
  cbn [with_client with_cur_msg_id client _cur_msg_id val].
  rewrite Henc.
  erewrite send_loop_whole by (cbn; exact Hs).
  cbn [msg_id].
  destruct (Nat.eqb_spec (length full_msg) 0) as [H0|]; [|done].
  apply length_zero_iff_nil in H0 as ->. by rewrite app_nil_r.
Qed.

End WithLibs.

Import Wire Samples.
#[local] Existing Instance sample_consts.
#[local] Existing Instance sample_proto.

(** C2 at a failing input: the first [send] takes ten bytes of the 33-byte
    frame of a [node_list] request.  The loop calls [send(full_msg)] again
    with the whole frame, so the wire carries the first ten bytes twice: 43
    bytes, which is not the frame and not 16 + 17 bytes long. *)
Theorem short_write_repeats_the_start :
  let '(r, w) := send_msgs (M := MsgCrtNode) API_LST_NODE None [10%nat] session in
  r = Return 1
  /\ length request1 = 33%nat
  /\ wire w = take 10 request1 ++ request1
  /\ wire w <> request1
  /\ length (wire w) = 43%nat.
Proof. vm_compute. repeat split. discriminate. Qed.

(** The same request when the socket takes everything at once. *)
Example whole_write_is_intact :
  let '(r, w) := send_msgs (M := MsgCrtNode) API_LST_NODE None [] session in
  r = Return 1 /\ wire w = request1.
Proof. vm_compute. repeat split. Qed.

End SendFacts.

(** ** Waiting for a reply *)

Module WaitFacts.
Import Codec Client.

Section WithLibs.
Context {apiconsts : ApiConsts} {pb : ProtoLib}.

(** C7: a caller of [wait_for_result] that stays blocked during the waits of
    [quiet] and then finds the session disconnected and no reply deposited
    returns the empty list, the reply table untouched; if it then finds its
    reply, the deposited list is returned and removed from the table.  Either
    way the call returns, whatever would happen later ([rest]). *)
Theorem wait_for_result_returns (msg_id : Z) (quiet rest : list (list EnvAction))
    (w : World) :
  blocked_during msg_id quiet w ->
  let w' := after_waits quiet w in
  (_replies (client w') !! msg_id = None -> connected w' = false ->
   wait_for_result msg_id (quiet ++ rest) w = (Return [], w'))
  /\ (forall replies, _replies (client w') !! msg_id = Some replies ->
      wait_for_result msg_id (quiet ++ rest) w
      = (Return replies,
         with_client (with_replies (delete msg_id (_replies (client w'))) (client w')) w')).
Proof.
  revert w. induction quiet as [|actions quiet IH]; intros w Hblocked; cbv zeta.
  - cbn [after_waits foldl app]. split.
    + intros Hrep Hconn. destruct rest; cbn [wait_for_result]; by rewrite Hrep, Hconn.
    + intros replies Hrep. destruct rest; cbn [wait_for_result]; by rewrite Hrep.
  - destruct Hblocked as (Hrep & Hconn & Hblocked).
    cbn [app wait_for_result after_waits foldl]. rewrite Hrep, Hconn. cbn [negb].
    exact (IH _ Hblocked).
Qed.

End WithLibs.

Import Wire Samples.
#[local] Existing Instance sample_consts.
#[local] Existing Instance sample_proto.

(** The theorem on the sample session: the caller waits for reply 1, the
    receiver times out once, then another thread calls [disconnect]. *)
Lemma wait_for_result_returns_witness :
  let w' := after_waits [[EnvPass timeout]; [EnvDisconnect]] session in
  (_replies (client w') !! 1 = None -> connected w' = false ->
   wait_for_result 1 ([[EnvPass timeout]; [EnvDisconnect]] ++ [[EnvPass timeout]]) session
   = (Return [], w'))
  /\ (forall replies, _replies (client w') !! 1 = Some replies ->
      wait_for_result 1 ([[EnvPass timeout]; [EnvDisconnect]] ++ [[EnvPass timeout]]) session
      = (Return replies,
         with_client (with_replies (delete 1 (_replies (client w'))) (client w')) w')).
Proof.
  apply (wait_for_result_returns 1 [[EnvPass timeout]; [EnvDisconnect]] [[EnvPass timeout]]
           session).
  vm_compute. repeat split.
Defined.

(** Disconnecting releases the waiting caller with the empty list. *)
Example disconnect_releases_waiter :
  (wait_for_result 1 [[EnvPass timeout]; [EnvDisconnect]; [EnvPass timeout]] session).1
  = Return [].
Proof. reflexivity. Qed.

(** A deposited reply is handed over and leaves the table. *)
Example deposited_reply_is_popped :
  let '(r, w) := wait_for_result 1 [[EnvPass (reads reply1)]] session in
  r = Return [Plain {| pb_class := MsgLstNode_cls; pb_wire := [x01; x02] |}]
  /\ _replies (client w) !! 1 = None.
Proof. vm_compute. repeat split. Qed.

End WaitFacts.

(** ** Connecting *)

Module ConnectFacts.
Import Codec Client.

Section WithLibs.
Context {apiconsts : ApiConsts} {pb : ProtoLib}.

(** A URI whose scheme does not start with [linstor] is refused before
    anything else happens: no connection is opened and the session is as it
    was. *)
Lemma connect_rejects_other_schemes server peer w :
  String.prefix "linstor" (scheme (urlparse server)) = false ->
  connect server peer w
  = (Raise (LinstorError ("Unknown uri scheme '" ++ scheme (urlparse server)
                          ++ "' in '" ++ server ++ "'.")), w).
Proof. intros H. unfold connect. by rewrite H. Qed.

Lemma _read_api_version_blocking_opened incoming w :
  opened (_read_api_version_blocking incoming w).2 = opened w.
Proof.
  unfold _read_api_version_blocking.
  match goal with |- context [match ?x with Return _ => _ | _ => _ end] => destruct x end;
    try done.
  unfold _parse_api_version.
  destruct (ParseFromString a); try done.
  by destruct (_api_version (client w)).
Qed.

(** A URI whose scheme starts with [linstor] makes [connect] open one
    connection, to the host of the URI and the chosen port. *)
Lemma connect_opens server peer w :
  String.prefix "linstor" (scheme (urlparse server)) = true ->
  opened (connect server peer w).2
  = opened w ++ [((parse_host (netloc (urlparse server))).1,
                  chosen_port (scheme (urlparse server))
                              (parse_host (netloc (urlparse server))).2)].
Proof.
  intros H. unfold connect. rewrite H. cbn [negb].
  destruct (parse_host (netloc (urlparse server))) as [host port]. cbn [fst snd].
  destruct (accepts_connection peer); [|done]. cbn [negb].
  destruct (String.eqb (scheme (urlparse server)) "linstor+ssl" && negb (accepts_tls peer));
    [done|].
  match goal with |- context [_read_api_version_blocking ?i ?w0] =>
    pose proof (_read_api_version_blocking_opened i w0) as Ho;
    destruct (_read_api_version_blocking i w0) as [r w1] end.
  cbn [snd] in Ho.
  destruct r as [b|e|]; [| destruct e |];
    cbn [snd opened with_client]; by rewrite Ho.
Qed.

(** With no port in the URI, the TLS scheme gets the controller's TLS port
    and the plain scheme the controller's plain port. *)
Lemma default_ports :
  chosen_port "linstor+ssl" None = PortNumber DFLT_CTRL_PORT_SSL
  /\ chosen_port "linstor" None = PortNumber DFLT_CTRL_PORT_PLAIN.
Proof. split; reflexivity. Qed.

End WithLibs.

Import Wire Samples.
#[local] Existing Instance sample_consts.
#[local] Existing Instance sample_proto.

(** C8 at a failing input: the scheme of [linstorx://controller] is not one
    of the two the docstring of [connect] names, but it starts with
    [linstor]: [connect] does not raise; it opens a plain connection to the
    controller's default plain port, does the handshake and returns [True]. *)
Theorem connect_accepts_unknown_linstor_scheme :
  let '(r, w) := connect "linstorx://controller" controller (new_world (new_client 20)) in
  scheme (urlparse "linstorx://controller") = "linstorx"
  /\ r = Return true
  /\ opened w = [("controller"%string, PortNumber 3376)]
  /\ connected w = true.
Proof. vm_compute. repeat split. Qed.

(** The two schemes of the docstring, and a foreign one. *)
Example connect_plain_and_tls_and_http :
  opened (connect "linstor://controller" controller (new_world (new_client 20))).2
  = [("controller"%string, PortNumber 3376)]
  /\ opened (connect "linstor+ssl://controller" controller (new_world (new_client 20))).2
     = [("controller"%string, PortNumber 3377)]
  /\ connect "http://controller" controller (new_world (new_client 20))
     = (Raise (LinstorError "Unknown uri scheme 'http' in 'http://controller'."),
        new_world (new_client 20)).
Proof. vm_compute. repeat split. Qed.

End ConnectFacts.

(** ** Creating a node *)

Module NodeFacts.
Import Codec Client Linstor.

Section WithLibs.
Context {apiconsts : ApiConsts} {pb : ProtoLib}.

(** C10: with a port given by the caller, the message [node_create] hands
    to [send_msg] has [stlt_port] and [stlt_encryption_type] unset.  The two
    fields are assigned only when the port is [None]: the controller's or the
    satellite's plain port for the plain communication type, by node type;
    the controller's TLS port for the TLS type; and a [LinstorError], nothing
    being sent, for any other type. *)
Theorem node_create_sets_port_only_by_default
    (node_name node_type ip com_type netif_name : string) (port : Z)
    (room : list nat) (env : list (list EnvAction)) (w : World) :
  let unset := crt_node_msg node_name node_type ip netif_name None None in
  let by_default p := crt_node_msg node_name node_type ip netif_name (Some p) (Some com_type) in
  node_create_msg node_name node_type ip com_type (Some port) netif_name = Return unset
  /\ node_create node_name node_type ip com_type (Some port) netif_name room env w
     = match send_msg API_CRT_NODE (Some unset) room w with
       | (Return msg_id, w) => wait_for_result msg_id env w
       | (Raise e, w) => (Raise e, w)
       | (Unfinished, w) => (Unfinished, w)
       end
  /\ node_create_msg node_name node_type ip com_type None netif_name
     = (if String.eqb com_type VAL_NETCOM_TYPE_PLAIN then
          Return (by_default (if String.eqb node_type VAL_NODE_TYPE_CTRL
                              then DFLT_CTRL_PORT_PLAIN else DFLT_STLT_PORT_PLAIN))
        else if String.eqb com_type VAL_NETCOM_TYPE_SSL then
          Return (by_default DFLT_CTRL_PORT_SSL)
        else Raise (LinstorError ("Communication type " ++ com_type
                                  ++ " has no default port")))
  /\ (String.eqb com_type VAL_NETCOM_TYPE_PLAIN = false ->
      String.eqb com_type VAL_NETCOM_TYPE_SSL = false ->
      node_create node_name node_type ip com_type None netif_name room env w
      = (Raise (LinstorError ("Communication type " ++ com_type
                              ++ " has no default port")), w)).
Proof.
  cbv zeta. unfold node_create, node_create_msg, crt_node_msg.
  repeat split.
  - destruct (String.eqb com_type VAL_NETCOM_TYPE_PLAIN); [done|].
    by destruct (String.eqb com_type VAL_NETCOM_TYPE_SSL).
  - by intros -> ->.
Qed.

End WithLibs.

Import Wire Samples.
#[local] Existing Instance sample_consts.
#[local] Existing Instance sample_proto.

(** On the wire: the frame of a [node_create] with port 3366 given carries
    neither the port nor the encryption type; with no port given it carries
    both. *)
Example node_create_on_the_wire :
  wire (node_create "n1" "SATELLITE" "10.0.0.1" "PLAIN" (Some 3366) "default" []
          [[EnvDisconnect]] session).2
  = frame "API_CRT_NODE" 1
      [ser_MsgCrtNode (crt_node_msg "n1" "SATELLITE" "10.0.0.1" "default" None None)]
  /\ wire (node_create "n1" "SATELLITE" "10.0.0.1" "PLAIN" None "default" []
             [[EnvDisconnect]] session).2
     = frame "API_CRT_NODE" 1
         [ser_MsgCrtNode (crt_node_msg "n1" "SATELLITE" "10.0.0.1" "default"
                            (Some 3366) (Some "PLAIN"%string))].
Proof. vm_compute. split; reflexivity. Qed.

End NodeFacts.

(** ** Message ids under concurrent senders *)

Module SendersFacts.
Import Client Senders.

Lemma alloc_ids_app tr1 tr2 : alloc_ids (tr1 ++ tr2) = alloc_ids tr1 ++ alloc_ids tr2.
Proof. unfold alloc_ids. apply omap_app. Qed.

Lemma first_ids_S n : first_ids (S n) = first_ids n ++ [Z.of_nat n + 1].
Proof.
  unfold first_ids. rewrite seq_S, map_app. cbn [map]. do 2 f_equal. lia.
Qed.

Lemma first_ids_lookup n i id : first_ids n !! i = Some id -> id = Z.of_nat i + 1.
Proof.
  unfold first_ids. rewrite list_lookup_fmap.
  destruct (seq 1 n !! i) as [x|] eqn:Hx; [|done].
  apply lookup_seq in Hx as [-> _]. intros [= <-]. lia.
Qed.

Lemma first_ids_NoDup n : NoDup (first_ids n).
Proof.
  unfold first_ids. apply NoDup_fmap_2; [|apply NoDup_seq].
  intros x y. lia.
Qed.

(** Where an event sits in a trace that got one event longer. *)
Lemma snoc_split {A} (pre post tr : list A) (x y : A) :
  tr ++ [y] = pre ++ x :: post ->
  (post = [] /\ pre = tr /\ x = y)
  \/ exists post', post = post' ++ [y] /\ tr = pre ++ x :: post'.
Proof.
  destruct post as [|z post' _] using rev_ind; intros H.
  - left. apply app_inj_tail in H as [-> ->]. done.
  - right. exists post'.
    change (pre ++ x :: post' ++ [z]) with (pre ++ (x :: post') ++ [z]) in H.
    rewrite app_assoc in H. apply app_inj_tail in H as [-> ->]. done.
Qed.

Lemma ordered_snoc_sent tr t v : ordered tr -> ordered (tr ++ [EvSent t v]).
Proof.
  intros Hord pre t0 id post H.
  apply snoc_split in H as [(_ & _ & [=])|(post' & _ & ->)].
  by apply (Hord pre t0 id post').
Qed.

Lemma ordered_snoc_alloc tr t v :
  ordered tr -> Forall (fun e => ev_id e < v) tr -> ordered (tr ++ [EvAlloc t v]).
Proof.
  intros Hord Hlt pre t0 id post H.
  apply snoc_split in H as [(_ & -> & [= _ ->])|(post' & _ & ->)]; [done|].
  by apply (Hord pre t0 id post').
Qed.

Lemma Inv_init : Inv init.
Proof.
  split; cbn; try done.
  - by intros _ v [?|?].
  - intros pre t id post H. by destruct pre.
Qed.

Ltac pcs_cases t t' :=
  destruct (decide (t = t')) as [<-|Hne];
  [rewrite ?fn_lookup_insert in * | rewrite ?fn_lookup_insert_ne in * by done].

(** Every step of every thread keeps the invariant. *)
Lemma Inv_step t s : Inv s -> Inv (step t s).
Proof.
  intros HI. pose proof HI as [Hlock Hread Hwritten Hval Hids Hbound Hheld Hord].
  unfold step. destruct (pcs s t) eqn:Hpc.
  - (* Idle: take the counter's lock *)
    destruct (lock s) eqn:Hl; [exact HI|].
    split; cbn [pcs lock counter trace slock]; try done.
    + intros t' Hc. pcs_cases t t'; [done|].
      apply Hlock in Hc. congruence.
    + intros t' v H. pcs_cases t t'; [done|]. eauto.
    + intros t' v H. pcs_cases t t'; [done|]. eauto.
    + intros H. apply Hval. intros t' v Ht'.
      apply (H t' v). pcs_cases t t'; [congruence|done].
    + intros t' v H. pcs_cases t t'; [by destruct H|]. eauto.
  - (* IncLocked: val = self.val *)
    assert (Hmine : lock s = Some t) by (apply Hlock; by rewrite Hpc).
    assert (Hnone : forall t' v, pcs s t' <> IncWritten v).
    { intros t' v Ht'. assert (lock s = Some t') by (apply Hlock; by rewrite Ht').
      assert (t' = t) by congruence. congruence. }
    split; cbn [pcs lock counter trace slock]; try done.
    + intros t' Hc. pcs_cases t t'; [done|]. by apply Hlock.
    + intros t' v H. pcs_cases t t'; [|eauto].
      injection H as <-. split; [done|]. rewrite Hval by done. lia.
    + intros t' v H. pcs_cases t t'; [done|]. eauto.
    + intros _. by apply Hval.
    + intros t' v H. pcs_cases t t'; [by destruct H|]. eauto.
  - (* IncRead: self.val += 1 *)
    assert (Hmine : lock s = Some t) by (apply Hlock; by rewrite Hpc).
    destruct (Hread t v Hpc) as [Hv Hk].
    assert (Halone : forall t', t <> t' -> in_critical (pcs s t') = false).
    { intros t' Hne. destruct (in_critical (pcs s t')) eqn:Hc; [|done].
      apply Hlock in Hc. congruence. }
    split; cbn [pcs lock counter trace slock val]; try done.
    + intros t' Hc. pcs_cases t t'; [done|]. by apply Hlock.
    + intros t' v' H. pcs_cases t t'; [done|].
      specialize (Halone t' Hne). by rewrite H in Halone.
    + intros t' v' H. pcs_cases t t'.
      * injection H as <-. lia.
      * specialize (Halone t' Hne). by rewrite H in Halone.
    + intros H. exfalso. apply (H t v). by rewrite fn_lookup_insert.
    + intros t' v' H. pcs_cases t t'; [by destruct H|]. eauto.
  - (* IncWritten: leave the lock, return the id *)
    assert (Hmine : lock s = Some t) by (apply Hlock; by rewrite Hpc).
    destruct (Hwritten t v Hpc) as [Hv Hk].
    assert (Halone : forall t', t <> t' -> in_critical (pcs s t') = false).
    { intros t' Hne. destruct (in_critical (pcs s t')) eqn:Hc; [|done].
      apply Hlock in Hc. congruence. }
    assert (Hlen : length (alloc_ids (trace s ++ [EvAlloc t v]))
                   = S (length (alloc_ids (trace s)))).
    { rewrite alloc_ids_app, length_app. cbn. lia. }
    split; cbn [pcs lock counter trace slock val]; rewrite ?Hlen.
    + intros t' Hc. pcs_cases t t'; [done|].
      specialize (Halone t' Hne). congruence.
    + intros t' v' H. pcs_cases t t'; [done|].
      specialize (Halone t' Hne). by rewrite H in Halone.
    + intros t' v' H. pcs_cases t t'; [done|].
      specialize (Halone t' Hne). by rewrite H in Halone.
    + intros _. lia.
    + rewrite alloc_ids_app, first_ids_S, <- Hids. cbn. do 2 f_equal. lia.
    + apply Forall_app. split.
      * eapply Forall_impl; [exact Hbound|]. cbn. intros e He. lia.
      * apply Forall_singleton. cbn. lia.
    + intros t' v' H. pcs_cases t t'.
      * destruct H as [[= <-]|[=]]. lia.
      * apply Hheld in H. lia.
    + apply ordered_snoc_alloc; [done|].
      eapply Forall_impl; [exact Hbound|]. cbn. intros e He. lia.
  - (* HasId: take _slock *)
    destruct (slock s) eqn:Hsl; [exact HI|].
    split; cbn [pcs lock counter trace slock]; try done.
    + intros t' Hc. pcs_cases t t'; [done|]. by apply Hlock.
    + intros t' v' H. pcs_cases t t'; [done|]. eauto.
    + intros t' v' H. pcs_cases t t'; [done|]. eauto.
    + intros H. apply Hval. intros t' v' Ht'.
      apply (H t' v'). pcs_cases t t'; [congruence|done].
    + intros t' v' H. pcs_cases t t'; [|eauto].
      destruct H as [[=]|[= <-]]. eauto.
  - (* Writing: the frame is written, leave _slock *)
    assert (Hlen : alloc_ids (trace s ++ [EvSent t v]) = alloc_ids (trace s)).
    { rewrite alloc_ids_app. cbn. by rewrite app_nil_r. }
    split; cbn [pcs lock counter trace slock]; rewrite ?Hlen; try done.
    + intros t' Hc. pcs_cases t t'; [done|]. by apply Hlock.
    + intros t' v' H. pcs_cases t t'; [done|]. eauto.
    + intros t' v' H. pcs_cases t t'; [done|]. eauto.
    + intros H. apply Hval. intros t' v' Ht'.
      apply (H t' v'). pcs_cases t t'; [congruence|done].
    + apply Forall_app. split; [done|].
      apply Forall_singleton. cbn. eauto.
    + intros t' v' H. pcs_cases t t'; [by destruct H|]. eauto.
    + by apply ordered_snoc_sent.
Qed.

Lemma Inv_exec sched : forall s, Inv s -> Inv (exec sched s).
Proof.
  induction sched as [|t sched IH]; intros s Hs; [done|].
  cbn [exec foldl]. apply IH. by apply Inv_step.
Qed.

(** Four steps of a thread that is alone in [get_and_inc] are the
    sequential [get_and_inc]. *)
Lemma get_and_inc_alone t s :
  pcs s t = Idle -> lock s = None ->
  let s' := exec [t; t; t; t] s in
  pcs s' t = HasId (get_and_inc (counter s)).1
  /\ counter s' = (get_and_inc (counter s)).2
  /\ lock s' = None
  /\ trace s' = trace s ++ [EvAlloc t (get_and_inc (counter s)).1].
Proof.
  intros Hpc Hl. cbn [exec foldl].
  assert (Hstep : forall s0 pc, pcs s0 t = pc ->
            step t s0 = match pc with
                        | Idle | HasId _ | Writing _ => step t s0
                        | IncLocked =>
                          {| counter := counter s0; lock := lock s0; slock := slock s0;
                             pcs := <[t := IncRead (val (counter s0))]> (pcs s0);
                             trace := trace s0 |}
                        | IncRead v =>
                          {| counter := {| val := val (counter s0) + 1 |}; lock := lock s0;
                             slock := slock s0; pcs := <[t := IncWritten v]> (pcs s0);
                             trace := trace s0 |}
                        | IncWritten v =>
                          {| counter := counter s0; lock := None; slock := slock s0;
                             pcs := <[t := HasId v]> (pcs s0);
                             trace := trace s0 ++ [EvAlloc t v] |}
                        end).
  { intros s0 pc Hs0. destruct pc; try done; unfold step; by rewrite Hs0. }
  assert (H1 : step t s = {| counter := counter s; lock := Some t; slock := slock s;
                             pcs := <[t := IncLocked]> (pcs s); trace := trace s |})
    by (unfold step; by rewrite Hpc, Hl).
  rewrite H1.
  match goal with |- context [step t (step t (step t ?x))] =>
    rewrite (Hstep x IncLocked) by apply fn_lookup_insert end.
  cbn [counter lock slock pcs trace].
  match goal with |- context [step t (step t ?x)] =>
    rewrite (Hstep x (IncRead (val (counter s)))) by apply fn_lookup_insert end.
  cbn [counter lock slock pcs trace].
  match goal with |- context [step t ?x] =>
    rewrite (Hstep x (IncWritten (val (counter s)))) by apply fn_lookup_insert end.
  cbn [counter lock slock pcs trace get_and_inc fst snd].
  by rewrite fn_lookup_insert.
Qed.

(** C6, amended: in every interleaving of any number of sender threads, on
    a session whose counter starts at 1, the ids [get_and_inc] returns are
    1, 2, 3, ... in the order it returns them: each send gets the current
    value and advances it by one.  So no id is returned twice; of two sends
    the one that took its id first has the smaller id; and every message
    whose id was taken, or whose frame was written, before a send takes its
    id has a smaller id than that send. *)
Theorem msg_ids_increase_and_never_repeat (sched : list nat) :
  let tr := trace (exec sched init) in
  val (counter init) = 1
  /\ alloc_ids tr = first_ids (length (alloc_ids tr))
  /\ NoDup (alloc_ids tr)
  /\ (forall i j id1 id2,
        alloc_ids tr !! i = Some id1 -> alloc_ids tr !! j = Some id2 ->
        (i < j)%nat -> id1 < id2)
  /\ (forall pre t2 id2 post,
        tr = pre ++ EvAlloc t2 id2 :: post -> Forall (fun e => ev_id e < id2) pre).
Proof.
  cbv zeta. destruct (Inv_exec sched init Inv_init) as [_ _ _ _ Hids _ _ Hord].
  split; [done|]. split; [done|]. split; [|split].
  - rewrite Hids. apply first_ids_NoDup.
  - intros i j id1 id2 Hi Hj Hlt. rewrite Hids in Hi, Hj.
    apply first_ids_lookup in Hi, Hj. lia.
  - exact Hord.
Qed.

(** C6 as stated fails when two senders overlap: thread 0 takes id 1,
    thread 1 takes id 2 and is first at [_slock].  The frame with id 2 is
    sent before the frame with id 1. *)
Lemma overlapping_senders_swap_on_the_wire :
  let tr := trace (exec [0; 0; 0; 0; 1; 1; 1; 1; 1; 1; 0; 0]%nat init) in
  tr = [EvAlloc 0 1; EvAlloc 1 2; EvSent 1 2; EvSent 0 1]
  /\ sent_ids tr = [2; 1]
  /\ ~ 2 < 1.
Proof. repeat split. lia. Qed.

End SendersFacts.

(** ** Round trips of the frame codec *)

Module RoundTrip.
Import Codec.

Lemma byte_val_of z : byte_val (byte_of z) = z mod 256.
Proof.
  unfold byte_val, byte_of.
  pose proof (Z.mod_pos_bound z 256 ltac:(lia)) as Hz.
  destruct (Byte.of_N (Z.to_N (z mod 256))) as [b|] eqn:Hof.
  - apply Byte.to_of_N in Hof. rewrite Hof. lia.
  - apply Byte.of_N_None_iff in Hof. lia.
Qed.

Lemma low7_range v : 0 <= Z.land v 127 < 128.
Proof.
  change 127 with (Z.ones 7). rewrite Z.land_ones by lia.
  apply Z.mod_pos_bound. lia.
Qed.

(** The last byte of a varint: the seven bits, no continuation bit. *)
Lemma last_byte v :
  byte_val (byte_of (Z.land v 127)) = Z.land v 127
  /\ Z.land (Z.land v 127) 128 = 0
  /\ Z.land (Z.land v 127) 127 = Z.land v 127.
Proof.
  pose proof (low7_range v).
  rewrite byte_val_of, Z.mod_small by lia.
  rewrite <- !Z.land_assoc. change (Z.land 127 128) with 0. change (Z.land 127 127) with 127.
  by rewrite Z.land_0_r.
Qed.

(** A byte before the last: the seven bits under the continuation bit. *)
Lemma continuation_byte v :
  let b := byte_val (byte_of (Z.lor 128 (Z.land v 127))) in
  Z.land b 127 = Z.land v 127 /\ Z.land b 128 = 128.
Proof.
  cbv zeta. pose proof (low7_range v) as Hr.
  destruct (last_byte v) as (_ & H128 & H127).
  assert (Hsum : Z.lor 128 (Z.land v 127) = 128 + Z.land v 127).
  { rewrite <- Z.lxor_lor by (by rewrite Z.land_comm).
    symmetry. apply Z.add_nocarry_lxor. by rewrite Z.land_comm. }
  rewrite byte_val_of, Z.mod_small by lia.
  rewrite !Z.land_lor_distr_l, H128, H127.
  change (Z.land 128 127) with 0. change (Z.land 128 128) with 128.
  by rewrite Z.lor_0_l, Z.lor_0_r.
Qed.

(** The groups of a number, put back in place by the decoder's shifts. *)
Lemma lor_groups result v shift :
  0 <= shift -> 0 <= v ->
  Z.lor (Z.lor result (Z.shiftl (Z.land v 127) shift))
        (Z.shiftl (Z.shiftr v 7) (shift + 7))
  = Z.lor result (Z.shiftl v shift).
Proof.
  intros Hs Hv. rewrite <- Z.lor_assoc. f_equal.
  apply Z.bits_inj'. intros n Hn.
  rewrite Z.lor_spec, !Z.shiftl_spec by lia.
  destruct (Z.lt_ge_cases n shift) as [Hlt|Hge].
  - rewrite !Z.testbit_neg_r by lia. reflexivity.
  - rewrite Z.land_spec.
    destruct (Z.lt_ge_cases (n - shift) 7) as [Hlow|Hhigh].
    + rewrite (Z.testbit_neg_r _ (n - (shift + 7))) by lia.
      change 127 with (Z.ones 7). rewrite Z.ones_spec_low by lia.
      by rewrite andb_true_r, orb_false_r.
    + change 127 with (Z.ones 7). rewrite Z.ones_spec_high by lia.
      rewrite andb_false_r, orb_false_l, Z.shiftr_spec by lia.
      f_equal. lia.
Qed.

(** The encoder's output for a number of at most [k + 1] groups. *)
Lemma _VarintBytes_groups v k :
  0 <= v < 2 ^ (7 * (Z.of_nat k + 1)) ->
  _VarintBytes v = EncodeVarint_loop k (Z.land v 127) (Z.shiftr v 7).
Proof.
  intros Hv. unfold _VarintBytes.
  apply CodecFacts.EncodeVarint_loop_fuel.
  - rewrite Z.shiftr_div_pow2 by lia.
    split; [apply Z.div_pos; lia|].
    apply Z.div_lt_upper_bound; [lia|].
    destruct (Z.eq_dec v 0) as [->|Hne].
    + pose proof (Z.pow_pos_nonneg 2 (7 * Z.of_nat (Z.to_nat (Z.log2 0)))). cbn in *. lia.
    + pose proof (Z.log2_spec v ltac:(lia)) as [_ Hlt].
      pose proof (Z.log2_nonneg v).
      eapply Z.lt_le_trans; [exact Hlt|].
      rewrite <- Z.pow_add_r by lia.
      apply Z.pow_le_mono_r; lia.
  - rewrite Z.shiftr_div_pow2 by lia.
    split; [apply Z.div_pos; lia|].
    apply Z.div_lt_upper_bound; [lia|].
    rewrite <- Z.pow_add_r by lia.
    replace (7 + 7 * Z.of_nat k) with (7 * (Z.of_nat k + 1)) by lia. lia.
Qed.

(** The decoder reads back what the encoder wrote, wherever it stands in a
    buffer. *)
Lemma DecodeVarint_loop_encoded mask : forall k v pre rest result shift groups,
  0 <= v < 2 ^ (7 * (Z.of_nat k + 1)) ->
  0 <= shift -> shift + 7 * Z.of_nat k < 64 -> (k < groups)%nat ->
  DecodeVarint_loop groups mask
    (pre ++ EncodeVarint_loop k (Z.land v 127) (Z.shiftr v 7) ++ rest)
    result shift (length pre)
  = Return (Z.land (Z.lor result (Z.shiftl v shift)) mask,
            (length pre + length (EncodeVarint_loop k (Z.land v 127) (Z.shiftr v 7)))%nat).
Proof.
  assert (Hlast : forall v pre rest result shift groups,
            0 <= v < 128 -> (0 < groups)%nat ->
            DecodeVarint_loop groups mask (pre ++ [byte_of (Z.land v 127)] ++ rest)
              result shift (length pre)
            = Return (Z.land (Z.lor result (Z.shiftl v shift)) mask, (length pre + 1)%nat)).
  { intros v pre rest result shift groups Hv Hg.
    destruct groups as [|g]; [lia|]. cbn [DecodeVarint_loop]. unfold bytes.
    rewrite lookup_app_r, Nat.sub_diag by lia. cbn [lookup list_lookup app].
    destruct (last_byte v) as (-> & -> & ->). cbn [Z.eqb].
    assert (Z.land v 127 = v) as ->.
    { change 127 with (Z.ones 7). rewrite Z.land_ones by lia. apply Z.mod_small. lia. }
    do 2 f_equal. lia. }
  induction k as [|k IH]; intros v pre rest result shift groups Hv Hs Hmax Hg.
  - cbn [EncodeVarint_loop length]. apply Hlast; [cbn in Hv; lia|lia].
  - cbn [EncodeVarint_loop].
    destruct (Z.eqb_spec (Z.shiftr v 7) 0) as [Hz|Hnz].
    + cbn [length]. apply Hlast; [|lia].
      rewrite Z.shiftr_div_pow2 in Hz by lia.
      apply Z.div_small_iff in Hz; [|lia]. change (2 ^ 7) with 128 in Hz. lia.
    + destruct groups as [|g]; [lia|]. cbn [DecodeVarint_loop]. unfold bytes.
      rewrite lookup_app_r, Nat.sub_diag by lia. cbn [lookup list_lookup app].
      destruct (continuation_byte v) as (-> & ->). cbn [Z.eqb].
      destruct (Z.leb_spec 64 (shift + 7)) as [|_]; [lia|].
      assert (Hv' : 0 <= Z.shiftr v 7 < 2 ^ (7 * (Z.of_nat k + 1))).
      { rewrite Z.shiftr_div_pow2 by lia.
        split; [apply Z.div_pos; lia|].
        apply Z.div_lt_upper_bound; [lia|].
        rewrite <- Z.pow_add_r by lia.
        replace (7 + 7 * (Z.of_nat k + 1)) with (7 * (Z.of_nat (S k) + 1)) by lia. lia. }
      specialize (IH (Z.shiftr v 7)
                    (pre ++ [byte_of (Z.lor 128 (Z.land v 127))]) rest
                    (Z.lor result (Z.shiftl (Z.land v 127) shift)) (shift + 7) g
                    Hv' ltac:(lia) ltac:(lia) ltac:(lia)).
      rewrite length_app in IH. cbn [length] in IH.
      rewrite <- app_assoc in IH. cbn [app] in IH.
      replace (length pre + 1)%nat with (S (length pre)) in IH by lia.
      rewrite IH, lor_groups by lia.
      cbn [length]. do 2 f_equal. lia.
Qed.

Lemma _DecodeVarint32_encoded v pre rest :
  0 <= v < 2 ^ 32 ->
  _DecodeVarint32 (pre ++ _VarintBytes v ++ rest) (length pre)
  = Return (v, (length pre + length (_VarintBytes v))%nat).
Proof.
  intros Hv. unfold _DecodeVarint32.
  rewrite (_VarintBytes_groups v 4) by (change (2 ^ (7 * (Z.of_nat 4 + 1))) with (2 ^ 35); lia).
  rewrite (DecodeVarint_loop_encoded _ 4) by (try lia; change (2 ^ (7 * (Z.of_nat 4 + 1))) with (2 ^ 35); lia).
  do 2 f_equal.
  rewrite Z.lor_0_l, Z.shiftl_0_r.
  change (2 ^ 32 - 1) with (Z.ones 32). rewrite Z.land_ones by lia.
  apply Z.mod_small. lia.
Qed.

Lemma EncodeVarint_loop_nonempty fuel bits value :
  (0 < length (EncodeVarint_loop fuel bits value))%nat.
Proof. destruct fuel; cbn; [lia|]. destruct (value =? 0); cbn; lia. Qed.

(** Splitting the concatenation of delimited messages gives the messages
    back, wherever the scan stands. *)
Lemma split_loop_delimited : forall msgs pre acc fuel,
  Forall (fun m : bytes => Z.of_nat (length m) < 2 ^ 32) msgs ->
  (length (pre ++ concat (map delimited msgs)) <= fuel + length pre)%nat ->
  split_loop fuel (pre ++ concat (map delimited msgs)) (length pre) acc
  = Return (acc ++ msgs).
Proof.
  induction msgs as [|m msgs IH]; intros pre acc fuel Hlen Hfuel.
  - cbn [map concat]. rewrite !app_nil_r.
    apply CodecFacts.split_loop_done. lia.
  - apply Forall_cons in Hlen as [Hm Hlen].
    cbn [map concat] in *. unfold delimited at 1 in Hfuel. unfold delimited at 1.
    set (d := _VarintBytes (Z.of_nat (length m))) in *.
    assert (Hd : (0 < length d)%nat) by apply EncodeVarint_loop_nonempty.
    rewrite !length_app in Hfuel.
    destruct fuel as [|fuel]; [lia|].
    cbn [split_loop].
    destruct (Nat.ltb_spec (length pre)
                (length (pre ++ (d ++ m) ++ concat (map delimited msgs)))) as [_|Hge];
      [|rewrite !length_app in Hge; lia].
    replace (pre ++ (d ++ m) ++ concat (map delimited msgs))
      with (pre ++ d ++ (m ++ concat (map delimited msgs)))
      by (by rewrite <- !app_assoc).
    subst d. rewrite _DecodeVarint32_encoded by lia.
    set (d := _VarintBytes (Z.of_nat (length m))) in *.
    cbn [mbind PyResult_bind]. rewrite Nat2Z.id.
    replace (pre ++ d ++ m ++ concat (map delimited msgs))
      with ((pre ++ d) ++ m ++ concat (map delimited msgs))
      by (by rewrite <- !app_assoc).
    rewrite <- length_app, drop_app_length, take_app_length.
    replace ((pre ++ d) ++ m ++ concat (map delimited msgs))
      with ((pre ++ d ++ m) ++ concat (map delimited msgs))
      by (by rewrite <- !app_assoc).
    replace (length (pre ++ d) + length m)%nat with (length (pre ++ d ++ m))
      by (rewrite !length_app; lia).
    rewrite IH; [by rewrite <- app_assoc|done|].
    rewrite !length_app in *. lia.
Qed.

Lemma split_delimited msgs :
  Forall (fun m : bytes => Z.of_nat (length m) < 2 ^ 32) msgs ->
  _split_proto_msgs (concat (map delimited msgs)) = Return msgs.
Proof.
  intros Hlen. unfold _split_proto_msgs.
  apply (split_loop_delimited msgs [] [] _ Hlen). cbn. lia.
Qed.

Lemma fold_left_delimited bodies : forall init,
  fold_left (fun acc payload_serialized => acc ++ delimited payload_serialized) bodies init
  = init ++ concat (map delimited bodies).
Proof.
  induction bodies as [|b bodies IH]; intros init; cbn [fold_left map concat].
  - by rewrite app_nil_r.
  - by rewrite IH, <- app_assoc.
Qed.

(** The parts of the frame [send_msgs] builds. *)
Lemma encode_frame_shape {pb : ProtoLib} hdr_msg bodies full_msg :
  encode_frame hdr_msg bodies = Return full_msg ->
  let payload := concat (map delimited (SerializeToString hdr_msg :: bodies)) in
  Z.of_nat (length payload) < 2 ^ 32
  /\ exists packed, length packed = 4%nat
       /\ full_msg = repeat x00 4 ++ packed ++ repeat x00 8 ++ payload.
Proof.
  unfold encode_frame. cbv zeta. rewrite fold_left_delimited.
  cbn [map concat]. unfold pack_I.
  set (payload := delimited (SerializeToString hdr_msg) ++ concat (map delimited bodies)).
  destruct (Z.leb_spec 0 (Z.of_nat (length payload))); [|lia].
  destruct (Z.ltb_spec (Z.of_nat (length payload)) (2 ^ 32)) as [Hlt|]; [|done].
  cbn [andb mbind PyResult_bind]. intros [= <-].
  split; [done|].
  exists [byte_of (Z.shiftr (Z.of_nat (length payload)) 24);
          byte_of (Z.shiftr (Z.of_nat (length payload)) 16);
          byte_of (Z.shiftr (Z.of_nat (length payload)) 8);
          byte_of (Z.of_nat (length payload))].
  split; reflexivity.
Qed.

Lemma length_concat_le {A} (l : list A) (ls : list (list A)) :
  l ∈ ls -> (length l <= length (concat ls))%nat.
Proof.
  induction ls as [|x ls IH]; intros Hin; [by apply elem_of_nil in Hin|].
  cbn [concat]. rewrite length_app.
  apply elem_of_cons in Hin as [->|Hin]; [lia|]. specialize (IH Hin). lia.
Qed.

Lemma delimited_length (m : bytes) : (length m <= length (delimited m))%nat.
Proof. unfold delimited. rewrite length_app. lia. Qed.

(** The byte values are below 256. *)
Lemma byte_val_range b : 0 <= byte_val b < 256.
Proof.
  unfold byte_val. pose proof (Byte.to_N_bounded b). lia.
Qed.

Lemma unpack_I_range n4 : length n4 = 4%nat -> 0 <= unpack_I n4 < 2 ^ 32.
Proof.
  destruct n4 as [|b0 [|b1 [|b2 [|b3 [|? ?]]]]]; try done. intros _.
  unfold unpack_I. cbn [fold_left].
  pose proof (byte_val_range b0). pose proof (byte_val_range b1).
  pose proof (byte_val_range b2). pose proof (byte_val_range b3).
  change (2 ^ 32) with 4294967296. lia.
Qed.

(** The scan never uses more bytes than the buffer has: every sub-message
    costs its own bytes and at least one byte of length prefix. *)
Lemma split_loop_bound payload : forall fuel n acc msgs,
  split_loop fuel payload n acc = Return msgs ->
  exists new, msgs = acc ++ new
    /\ (length new + length (concat new) + Nat.min n (length payload)
        <= length payload)%nat.
Proof.
  induction fuel as [|fuel IH]; intros n acc msgs H; cbn [split_loop] in H;
    destruct (Nat.ltb_spec n (length payload)) as [Hlt|Hge]; try done;
    try (injection H as <-; exists []; rewrite app_nil_r; cbn; split; [done|lia]).
  destruct (_DecodeVarint32 payload n) as [[msg_len new_pos]| |] eqn:Hd; try done.
  cbn [mbind PyResult_bind] in H.
  apply CodecFacts._DecodeVarint32_advances in Hd.
  apply IH in H as (new & -> & Hbound).
  exists (take (Z.to_nat msg_len) (drop new_pos payload) :: new).
  split; [by rewrite <- app_assoc|].
  cbn [length concat]. rewrite length_app, length_take, length_drop. lia.
Qed.

End RoundTrip.

(** ** Frames through the receiver *)

Module FramingFacts.
Import Codec Client Framing.

Section WithLibs.
Context {apiconsts : ApiConsts} {pb : ProtoLib}.

Lemma with_receiver_same w r : receiver w = r -> with_receiver r w = w.
Proof. destruct w. cbn. by intros ->. Qed.

Lemma _parse_api_version_with_receiver data r w :
  _parse_api_version data (with_receiver r w)
  = ((_parse_api_version data w).1, with_receiver r (_parse_api_version data w).2).
Proof.
  unfold _parse_api_version. destruct (ParseFromString data); try done.
  cbn [client with_receiver]. by destruct (_api_version (client w)).
Qed.

(** Dispatching does not look at the receiver's status. *)
Lemma dispatch_with_receiver frm r w :
  dispatch frm (with_receiver r w)
  = ((dispatch frm w).1, with_receiver r (dispatch frm w).2).
Proof.
  unfold dispatch.
  destruct (_split_proto_msgs (drop 16 frm)) as [msgs| |]; try done.
  destruct (py_assert _); try done.
  destruct (_ ← _; ParseFromString _) as [hdr| |]; try done.
  destruct (String.eqb (api_call hdr) API_VERSION).
  - destruct (msgs !! 1%nat) as [data1|]; [|done].
    rewrite _parse_api_version_with_receiver.
    destruct (_parse_api_version data1 w) as [[] ?]; done.
  - destruct (reply_map !! api_call hdr) as [type_tuple|]; [|done].
    by destruct (_parse_proto_msgs type_tuple (drop 1 msgs)).
Qed.

Lemma take_16_prefix (package rest : bytes) :
  (16 <= length package)%nat -> take 16 (package ++ rest) = take 16 package.
Proof. intros H. by rewrite take_app_le. Qed.

(** A read that leaves the frame incomplete is only appended. *)
Lemma receive_incomplete frm package exp_pkg_len read rest w :
  awaiting frm package exp_pkg_len ->
  package ++ read ++ rest = frm ->
  (length (package ++ read) < length frm)%nat ->
  exists exp', receive read package exp_pkg_len w
               = with_receiver (RxRunning (package ++ read) exp') w
    /\ awaiting frm (package ++ read) exp'.
Proof.
  intros (N & HN & HN0 & Hlen & Hshort & ->) Hfrm Hless.
  exists (if Nat.ltb (length (package ++ read)) 16 then 0 else N).
  split.
  - unfold receive. cbv zeta.
    destruct (Nat.ltb_spec (length (package ++ read)) 16) as [H16|H16].
    + destruct (Z.ltb_spec 15 (Z.of_nat (length (package ++ read)))); [lia|].
      cbn [andb]. rewrite length_app in H16.
      destruct (Nat.ltb_spec (length package) 16); [|lia]. done.
    + assert (Hexp : (if (15 <? Z.of_nat (length (package ++ read)))
                          && ((if Nat.ltb (length package) 16 then 0 else N) =? 0)
                      then _parse_payload_length (take 16 (package ++ read))
                      else Return (if Nat.ltb (length package) 16 then 0 else N))
                     = Return N).
      { destruct (Z.ltb_spec 15 (Z.of_nat (length (package ++ read)))); [|lia].
        destruct (Nat.ltb_spec (length package) 16).
        - cbn. rewrite <- (take_16_prefix (package ++ read) rest) by done.
          by rewrite <- app_assoc, Hfrm.
        - destruct (Z.eqb_spec N 0); done. }
      rewrite Hexp.
      destruct (Z.eqb_spec N 0); [done|].
      destruct (Z.eqb_spec (Z.of_nat (length (package ++ read))) (N + 16)); [lia|].
      done.
  - exists N. repeat split; done.
Qed.

Lemma _parse_payload_length_16 header N :
  _parse_payload_length header = Return N -> length header = 16%nat.
Proof.
  unfold _parse_payload_length.
  destruct (Nat.eqb_spec 16 (length header)); [done|]. discriminate.
Qed.

(** The read that completes the frame dispatches it. *)
Lemma receive_complete frm package exp_pkg_len read w :
  awaiting frm package exp_pkg_len ->
  package ++ read = frm ->
  receive read package exp_pkg_len w = complete frm w.
Proof.
  intros (N & HN & HN0 & Hlen & Hshort & ->) Hfrm.
  unfold receive, complete. cbv zeta. rewrite Hfrm.
  assert (Hexp : (if (15 <? Z.of_nat (length frm))
                       && ((if Nat.ltb (length package) 16 then 0 else N) =? 0)
                   then _parse_payload_length (take 16 frm)
                   else Return (if Nat.ltb (length package) 16 then 0 else N))
                  = Return N).
  { pose proof (_parse_payload_length_16 _ _ HN) as H16.
    rewrite length_take in H16.
    destruct (Z.ltb_spec 15 (Z.of_nat (length frm))); [|lia].
    destruct (Nat.ltb_spec (length package) 16); [done|].
    destruct (Z.eqb_spec N 0); done. }
  rewrite Hexp.
  destruct (Z.eqb_spec N 0); [done|].
  rewrite Hlen, Z.eqb_refl. done.
Qed.

Lemma run_pass_reads read package exp_pkg_len w :
  receiver w = RxRunning package exp_pkg_len -> connected w = true ->
  run_pass (reads read) w = receive read package exp_pkg_len w.
Proof.
  intros Hrx Hconn. unfold run_pass, connected in *. rewrite Hrx.
  destruct (_socket (client w)) eqn:Hs; [|done]. cbn. by rewrite Hs.
Qed.

Lemma complete_connected frm w :
  connected (complete frm w) = connected w.
Proof.
  unfold complete, connected.
  destruct (dispatch frm w) as [r w'] eqn:Hd.
  apply ReceiverFacts.dispatch_effect in Hd as (Hs & _).
  destruct r; cbn; by rewrite Hs.
Qed.

(** Empty reads change nothing once a frame has been dispatched. *)
Lemma run_empty_reads chunks : forall w,
  Forall (fun c : bytes => c = []) chunks ->
  connected w = true ->
  receiver w = RxRunning [] 0 \/ (exists e, receiver w = RxCrashed e) ->
  run (map reads chunks) w = w.
Proof.
  induction chunks as [|c chunks IH]; intros w Hall Hconn Hrx; [done|].
  apply Forall_cons in Hall as [-> Hall]. cbn [map run foldl].
  assert (Hpass : run_pass (reads []) w = w).
  { destruct Hrx as [Hrx|[e Hrx]].
    - rewrite (run_pass_reads [] [] 0) by done.
      unfold receive. cbn. by apply with_receiver_same.
    - apply SessionFacts.run_pass_not_running. intros ? ?. by rewrite Hrx. }
  rewrite Hpass. by apply IH.
Qed.

Lemma concat_nil_inv (chunks : list bytes) :
  concat chunks = [] -> Forall (fun c : bytes => c = []) chunks.
Proof.
  induction chunks as [|c chunks IH]; intros H; [done|].
  cbn in H. apply app_eq_nil in H as [-> H]. constructor; auto.
Qed.

(** The rest of a frame, delivered in any number of pieces, has the effect
    of the rest delivered by one [recv]. *)
Lemma run_pieces chunks : forall w frm package exp_pkg_len,
  receiver w = RxRunning package exp_pkg_len ->
  connected w = true ->
  awaiting frm package exp_pkg_len ->
  package ++ concat chunks = frm ->
  (dispatch frm w).1 <> Unfinished ->
  run (map reads chunks) w = complete frm (with_receiver (RxRunning package exp_pkg_len) w).
Proof.
  induction chunks as [|c chunks IH]; intros w frm package exp_pkg_len Hrx Hconn Haw Hfrm Hfin.
  - destruct Haw as (N & _ & _ & _ & Hshort & _).
    cbn in Hfrm. rewrite app_nil_r in Hfrm. subst. lia.
  - cbn [map run foldl concat] in *.
    rewrite (run_pass_reads c package exp_pkg_len) by done.
    destruct (Nat.lt_ge_cases (length (package ++ c)) (length frm)) as [Hless|Hge].
    + destruct (receive_incomplete frm package exp_pkg_len c (concat chunks) w Haw Hfrm Hless)
        as (exp' & -> & Haw').
      change (foldl (fun w p => run_pass p w) ?w0 (map reads chunks))
        with (run (map reads chunks) w0).
      rewrite (IH _ frm (package ++ c) exp'); try done.
      * unfold complete. rewrite !dispatch_with_receiver.
        destruct (dispatch frm w) as [[]]; done.
      * by rewrite <- app_assoc.
      * by rewrite dispatch_with_receiver.
    + assert (Hnil : concat chunks = []).
      { apply (f_equal length) in Hfrm. rewrite !length_app in *.
        apply length_zero_iff_nil. lia. }
      rewrite Hnil, app_nil_r in Hfrm.
      rewrite (receive_complete frm) by done.
      change (foldl (fun w p => run_pass p w) ?w0 (map reads chunks))
        with (run (map reads chunks) w0).
      rewrite (with_receiver_same w) by done.
      apply run_empty_reads.
      * by apply concat_nil_inv.
      * by rewrite complete_connected.
      * unfold complete. destruct (dispatch frm w) as [[| |] w'] eqn:Hd; cbn; eauto.
        by cbn in Hfin.
Qed.

(** A frame with a tag of [reply_map]: parsed and deposited. *)
Lemma dispatch_reply frm hdr bodies type_tuple replies w :
  carries frm hdr bodies ->
  String.eqb (api_call hdr) API_VERSION = false ->
  reply_map !! api_call hdr = Some type_tuple ->
  _parse_proto_msgs type_tuple bodies = Return replies ->
  dispatch frm w = (Return tt, deposit (msg_id hdr) replies w).
Proof.
  intros (data0 & Hsplit & Hhdr) Htag Hmap Hparse.
  unfold dispatch. rewrite Hsplit. cbn -[_parse_proto_msgs reply_map].
  by rewrite Hhdr, Htag, Hmap, drop_0, Hparse.
Qed.

(** A frame with a tag that is neither [API_VERSION] nor in [reply_map]:
    logged and dropped. *)
Lemma dispatch_unknown frm hdr bodies w :
  carries frm hdr bodies ->
  String.eqb (api_call hdr) API_VERSION = false ->
  reply_map !! api_call hdr = None ->
  dispatch frm w = (Return tt, log (LogError ("Unknown message reply: " ++ api_call hdr)) w).
Proof.
  intros (data0 & Hsplit & Hhdr) Htag Hmap.
  unfold dispatch. rewrite Hsplit. cbn -[_parse_proto_msgs reply_map].
  by rewrite Hhdr, Htag, Hmap.
Qed.

End WithLibs.
End FramingFacts.

(** ** Further properties of the codec and of the receiver *)

Module CodecExtras.
Import Codec.

Section WithLibs.
Context {pb : ProtoLib}.

(** X1: The frame [send_msgs] builds reads back: the length field of its 16-byte
    header is the number of bytes that follow, and splitting those bytes
    gives the serialised header message and the serialised bodies, in
    order. *)
Theorem frame_reads_back (hdr_msg : MsgHeader) (bodies : list bytes) (full_msg : bytes) :
  encode_frame hdr_msg bodies = Return full_msg ->
  _parse_payload_length (take 16 full_msg) = Return (Z.of_nat (length full_msg) - 16)
  /\ _split_proto_msgs (drop 16 full_msg) = Return (SerializeToString hdr_msg :: bodies).
Proof.
  intros Henc. split; [by apply (SendFacts.encode_frame_length hdr_msg bodies)|].
  apply RoundTrip.encode_frame_shape in Henc as (Hlt & packed & Hpacked & ->).
  replace (repeat x00 4 ++ packed ++ repeat x00 8
           ++ concat (map delimited (SerializeToString hdr_msg :: bodies)))
    with ((repeat x00 4 ++ packed ++ repeat x00 8)
          ++ concat (map delimited (SerializeToString hdr_msg :: bodies)))
    by (by rewrite <- !app_assoc).
  replace 16%nat with (length (repeat x00 4 ++ packed ++ repeat x00 8))
    by (rewrite !length_app, Hpacked; reflexivity).
  rewrite drop_app_length.
  apply RoundTrip.split_delimited.
  apply Forall_forall. intros m Hm.
  assert (length (delimited m)
          <= length (concat (map delimited (SerializeToString hdr_msg :: bodies))))%nat.
  { apply RoundTrip.length_concat_le.
    by apply (list_elem_of_fmap_2 delimited (SerializeToString hdr_msg :: bodies)). }
  pose proof (RoundTrip.delimited_length m). lia.
Qed.

End WithLibs.

(** X2: [_parse_payload_length] fails its assertion on anything but 16 bytes; on
    16 bytes it returns the big-endian number in bytes 4 to 7, a value below
    2^32, whatever the four bytes before and the eight bytes after are. *)
Theorem payload_length_reads_bytes_4_to_7 (header a n4 b : bytes) :
  (length header <> 16%nat -> _parse_payload_length header = Raise AssertionError)
  /\ (length a = 4%nat -> length n4 = 4%nat -> length b = 8%nat ->
      _parse_payload_length (a ++ n4 ++ b) = Return (unpack_I n4)
      /\ 0 <= unpack_I n4 < 2 ^ 32).
Proof.
  split.
  - intros Hlen. unfold _parse_payload_length.
    by destruct (Nat.eqb_spec 16 (length header)).
  - intros Ha Hn Hb. split; [|by apply RoundTrip.unpack_I_range].
    unfold _parse_payload_length.
    assert (length (a ++ n4 ++ b) = 16%nat) as -> by (rewrite !length_app; lia).
    cbn [Nat.eqb py_assert mbind PyResult_bind].
    by rewrite drop_app_length', take_app_length'.
Qed.

(** X3: [_split_proto_msgs] always ends, and when it returns it has not used
    more bytes than the buffer holds: the sub-messages together, plus one
    byte of length prefix for each, fit in the buffer. *)
Theorem split_fits_in_buffer (payload : bytes) :
  _split_proto_msgs payload <> Unfinished
  /\ (forall msgs, _split_proto_msgs payload = Return msgs ->
      (length msgs + length (concat msgs) <= length payload)%nat).
Proof.
  split; [apply CodecFacts._split_proto_msgs_finishes|].
  intros msgs H. apply RoundTrip.split_loop_bound in H as (new & -> & Hb).
  cbn [app]. lia.
Qed.

Import Wire Samples.
#[local] Existing Instance sample_proto.

Lemma frame_reads_back_witness :
  _parse_payload_length (take 16 reply1) = Return (Z.of_nat (length reply1) - 16)
  /\ _split_proto_msgs (drop 16 reply1)
     = Return (SerializeToString {| api_call := "API_LST_NODE"; msg_id := 1 |}
               :: [[x01; x02]]).
Proof.
  apply (frame_reads_back {| api_call := "API_LST_NODE"; msg_id := 1 |} [[x01; x02]] reply1).
  reflexivity.
Defined.

End CodecExtras.

Module ReceiverExtras.
Import Codec Client Framing.

Section WithLibs.
Context {apiconsts : ApiConsts} {pb : ProtoLib}.

(** What one [recv] does when it completes a reply frame. *)
Lemma run_pass_reply w frm package exp_pkg_len read hdr bodies type_tuple replies :
  receiver w = RxRunning package exp_pkg_len ->
  connected w = true ->
  awaiting frm package exp_pkg_len ->
  package ++ read = frm ->
  carries frm hdr bodies ->
  String.eqb (api_call hdr) API_VERSION = false ->
  reply_map !! api_call hdr = Some type_tuple ->
  _parse_proto_msgs type_tuple bodies = Return replies ->
  run_pass (reads read) w = with_receiver (RxRunning [] 0) (deposit (msg_id hdr) replies w).
Proof.
  intros Hrx Hconn Haw Hfrm Hcar Htag Hmap Hparse.
  rewrite (FramingFacts.run_pass_reads read package exp_pkg_len) by done.
  rewrite (FramingFacts.receive_complete frm) by done.
  unfold complete.
  by rewrite (FramingFacts.dispatch_reply frm hdr bodies type_tuple replies).
Qed.

(** X4: The rest of a frame has the same effect whether one [recv] delivers it
    or any number of [recv]s deliver it in pieces (empty reads included):
    the receiver reassembles the frame and dispatches it once. *)
Theorem pieces_are_reassembled (w : World) (frm package : bytes) (exp_pkg_len : Z)
    (chunks : list bytes) :
  receiver w = RxRunning package exp_pkg_len ->
  connected w = true ->
  awaiting frm package exp_pkg_len ->
  package ++ concat chunks = frm ->
  (dispatch frm w).1 <> Unfinished ->
  run (map reads chunks) w = run_pass (reads (concat chunks)) w.
Proof.
  intros Hrx Hconn Haw Hfrm Hfin.
  rewrite (FramingFacts.run_pieces chunks w frm package exp_pkg_len) by done.
  rewrite (FramingFacts.run_pass_reads (concat chunks) package exp_pkg_len) by done.
  rewrite (FramingFacts.receive_complete frm) by done.
  by rewrite FramingFacts.with_receiver_same.
Qed.

(** X5: A complete frame whose tag is in [reply_map] and is not [API_VERSION]:
    its bodies are parsed and deposited under the [msg_id] of its header, the
    waiters are notified once, and the receiver goes on with an empty buffer.
    A caller of [wait_for_result] for that id then gets exactly that list,
    and the reply table is what it was before, without the id. *)
Theorem reply_frame_is_deposited (w : World) (frm package read : bytes) (exp_pkg_len : Z)
    (hdr : MsgHeader) (bodies : list bytes) (type_tuple : MsgType * option WrapperType)
    (replies : list Reply) :
  receiver w = RxRunning package exp_pkg_len ->
  connected w = true ->
  awaiting frm package exp_pkg_len ->
  package ++ read = frm ->
  carries frm hdr bodies ->
  String.eqb (api_call hdr) API_VERSION = false ->
  reply_map !! api_call hdr = Some type_tuple ->
  _parse_proto_msgs type_tuple bodies = Return replies ->
  let w' := run_pass (reads read) w in
  receiver w' = RxRunning [] 0
  /\ _replies (client w') = <[msg_id hdr := replies]> (_replies (client w))
  /\ notified w' = S (notified w)
  /\ (forall env,
        (wait_for_result (msg_id hdr) env w').1 = Return replies
        /\ _replies (client (wait_for_result (msg_id hdr) env w').2)
           = delete (msg_id hdr) (_replies (client w))).
Proof.
  intros Hrx Hconn Haw Hfrm Hcar Htag Hmap Hparse. cbv zeta.
  rewrite (run_pass_reply w frm package exp_pkg_len read hdr bodies type_tuple replies)
    by done.
  repeat split.
  - destruct env; cbn [wait_for_result deposit with_receiver notifyAll with_client
                         with_replies client _replies];
      by rewrite lookup_insert_eq.
  - destruct env; cbn [wait_for_result deposit with_receiver notifyAll with_client
                         with_replies client _replies];
      rewrite lookup_insert_eq; cbn; by rewrite delete_insert_eq.
Qed.

(** X6: A complete frame whose tag is neither [API_VERSION] nor in [reply_map]
    is dropped: an error is logged, the reply table and the waiters are left
    alone, and the receiver goes on with an empty buffer. *)
Theorem unknown_tag_is_dropped (w : World) (frm package read : bytes) (exp_pkg_len : Z)
    (hdr : MsgHeader) (bodies : list bytes) :
  receiver w = RxRunning package exp_pkg_len ->
  connected w = true ->
  awaiting frm package exp_pkg_len ->
  package ++ read = frm ->
  carries frm hdr bodies ->
  String.eqb (api_call hdr) API_VERSION = false ->
  reply_map !! api_call hdr = None ->
  run_pass (reads read) w
  = with_receiver (RxRunning [] 0)
      (log (LogError ("Unknown message reply: " ++ api_call hdr)) w).
Proof.
  intros Hrx Hconn Haw Hfrm Hcar Htag Hmap.
  rewrite (FramingFacts.run_pass_reads read package exp_pkg_len) by done.
  rewrite (FramingFacts.receive_complete frm) by done.
  unfold complete.
  by rewrite (FramingFacts.dispatch_unknown frm hdr bodies).
Qed.

(** X7: Two reply frames with the same [msg_id], each arriving whole while the
    buffer is empty: the second list replaces the first in the reply table,
    and the waiters are notified twice. *)
Theorem later_reply_replaces_earlier (w : World) (frm1 frm2 : bytes)
    (hdr1 hdr2 : MsgHeader) (bodies1 bodies2 : list bytes)
    (tuple1 tuple2 : MsgType * option WrapperType) (replies1 replies2 : list Reply) :
  receiver w = RxRunning [] 0 ->
  connected w = true ->
  awaiting frm1 [] 0 -> awaiting frm2 [] 0 ->
  carries frm1 hdr1 bodies1 -> carries frm2 hdr2 bodies2 ->
  String.eqb (api_call hdr1) API_VERSION = false ->
  String.eqb (api_call hdr2) API_VERSION = false ->
  reply_map !! api_call hdr1 = Some tuple1 ->
  reply_map !! api_call hdr2 = Some tuple2 ->
  _parse_proto_msgs tuple1 bodies1 = Return replies1 ->
  _parse_proto_msgs tuple2 bodies2 = Return replies2 ->
  msg_id hdr1 = msg_id hdr2 ->
  let w' := run [reads frm1; reads frm2] w in
  _replies (client w') = <[msg_id hdr2 := replies2]> (_replies (client w))
  /\ notified w' = S (S (notified w))
  /\ receiver w' = RxRunning [] 0.
Proof.
  intros Hrx Hconn Haw1 Haw2 Hc1 Hc2 Ht1 Ht2 Hm1 Hm2 Hp1 Hp2 Hid. cbv zeta.
  cbn [run foldl].
  rewrite (run_pass_reply w frm1 [] 0 frm1 hdr1 bodies1 tuple1 replies1) by done.
  rewrite (run_pass_reply _ frm2 [] 0 frm2 hdr2 bodies2 tuple2 replies2) by done.
  cbn. rewrite Hid. by rewrite insert_insert_eq.
Qed.

(** With the length field of the first 16 bytes 0, every read is only
    appended. *)
Lemma run_empty_payload chunks : forall w package,
  receiver w = RxRunning package 0 ->
  connected w = true ->
  _parse_payload_length (take 16 (package ++ concat chunks)) = Return 0 ->
  run (map reads chunks) w = with_receiver (RxRunning (package ++ concat chunks) 0) w.
Proof.
  induction chunks as [|c chunks IH]; intros w package Hrx Hconn Hzero.
  - cbn. rewrite app_nil_r. symmetry. by apply FramingFacts.with_receiver_same.
  - cbn [map run foldl concat] in *.
    rewrite (FramingFacts.run_pass_reads c package 0) by done.
    assert (Hrecv : receive c package 0 w = with_receiver (RxRunning (package ++ c) 0) w).
    { unfold receive. cbv zeta. cbn [Z.eqb]. rewrite andb_true_r.
      destruct (Z.ltb_spec 15 (Z.of_nat (length (package ++ c)))) as [H16|H16].
      - rewrite <- (FramingFacts.take_16_prefix (package ++ c) (concat chunks)) by lia.
        rewrite <- app_assoc, Hzero. done.
      - done. }
    rewrite Hrecv.
    change (foldl (fun w p => run_pass p w) ?w0 (map reads chunks))
      with (run (map reads chunks) w0).
    rewrite (IH _ (package ++ c)); [by rewrite <- app_assoc|done|done|].
    by rewrite <- app_assoc.
Qed.

(** X8: A header that announces an empty payload stalls the receiver: from an
    empty buffer, if the stream starts with 16 bytes whose length field is
    0, nothing is ever dispatched, however the bytes arrive; the receiver
    keeps them all in its buffer. *)
Theorem empty_payload_header_stalls (w : World) (chunks : list bytes) :
  receiver w = RxRunning [] 0 ->
  connected w = true ->
  _parse_payload_length (take 16 (concat chunks)) = Return 0 ->
  let w' := run (map reads chunks) w in
  receiver w' = RxRunning (concat chunks) 0
  /\ client w' = client w
  /\ notified w' = notified w
  /\ logged w' = logged w.
Proof.
  intros Hrx Hconn Hzero. cbv zeta.
  by rewrite (run_empty_payload chunks w []).
Qed.

End WithLibs.

Import Wire Samples.
#[local] Existing Instance sample_consts.
#[local] Existing Instance sample_proto.

Lemma awaiting_reply1 : awaiting reply1 [] 0.
Proof. exists 20. vm_compute. repeat split; try done. lia. Qed.

Lemma awaiting_reply2 : awaiting reply2 [] 0.
Proof. exists 20. vm_compute. repeat split; try done. lia. Qed.

Lemma carries_reply1 :
  carries reply1 {| api_call := "API_LST_NODE"; msg_id := 1 |} [[x01; x02]].
Proof. eexists. split; reflexivity. Qed.

Lemma pieces_are_reassembled_witness :
  run (map reads [take 5 reply1; take 20 (drop 5 reply1); []; drop 25 reply1]) session
  = run_pass (reads (concat [take 5 reply1; take 20 (drop 5 reply1); []; drop 25 reply1]))
      session.
Proof.
  apply (pieces_are_reassembled session reply1 [] 0).
  - reflexivity.
  - reflexivity.
  - exact awaiting_reply1.
  - reflexivity.
  - vm_compute. discriminate.
Defined.

Lemma reply_frame_is_deposited_witness :
  let w' := run_pass (reads reply1) session in
  receiver w' = RxRunning [] 0
  /\ _replies (client w')
     = <[1 := [Plain {| pb_class := MsgLstNode_cls; pb_wire := [x01; x02] |}]]>
         (_replies (client session))
  /\ notified w' = S (notified session)
  /\ (forall env,
        (wait_for_result 1 env w').1
        = Return [Plain {| pb_class := MsgLstNode_cls; pb_wire := [x01; x02] |}]
        /\ _replies (client (wait_for_result 1 env w').2)
           = delete 1 (_replies (client session))).
Proof.
  apply (reply_frame_is_deposited session reply1 [] reply1 0
           {| api_call := "API_LST_NODE"; msg_id := 1 |} [[x01; x02]]
           (MsgLstNode_cls, None)).
  - reflexivity.
  - reflexivity.
  - exact awaiting_reply1.
  - reflexivity.
  - exact carries_reply1.
  - reflexivity.
  - reflexivity.
  - reflexivity.
Defined.

(** A frame with the tag [BOGUS_TAG]. *)
Lemma unknown_tag_is_dropped_witness :
  run_pass (reads (frame "BOGUS_TAG" 7 [])) session
  = with_receiver (RxRunning [] 0)
      (log (LogError ("Unknown message reply: " ++ "BOGUS_TAG")) session).
Proof.
  apply (unknown_tag_is_dropped session (frame "BOGUS_TAG" 7 []) [] (frame "BOGUS_TAG" 7 []) 0
           {| api_call := "BOGUS_TAG"; msg_id := 7 |} []).
  - reflexivity.
  - reflexivity.
  - exists 14. vm_compute. repeat split; try done. lia.
  - reflexivity.
  - eexists. split; reflexivity.
  - reflexivity.
  - reflexivity.
Defined.

(** Two replies with id 1, the second with another body. *)
Lemma later_reply_replaces_earlier_witness :
  let w' := run [reads reply1; reads (frame "API_LST_NODE" 1 [[x03]])] session in
  _replies (client w')
  = <[1 := [Plain {| pb_class := MsgLstNode_cls; pb_wire := [x03] |}]]>
      (_replies (client session))
  /\ notified w' = S (S (notified session))
  /\ receiver w' = RxRunning [] 0.
Proof.
  apply (later_reply_replaces_earlier session reply1 (frame "API_LST_NODE" 1 [[x03]])
           {| api_call := "API_LST_NODE"; msg_id := 1 |}
           {| api_call := "API_LST_NODE"; msg_id := 1 |}
           [[x01; x02]] [[x03]] (MsgLstNode_cls, None) (MsgLstNode_cls, None)
           [Plain {| pb_class := MsgLstNode_cls; pb_wire := [x01; x02] |}]).
  - reflexivity.
  - reflexivity.
  - exact awaiting_reply1.
  - exists 19. vm_compute. repeat split; try done. lia.
  - exact carries_reply1.
  - eexists. split; reflexivity.
  - reflexivity.
  - reflexivity.
  - reflexivity.
  - reflexivity.
  - reflexivity.
  - reflexivity.
  - reflexivity.
Defined.

(** A header with length field 0, cut in two, and then a reply frame. *)
Lemma empty_payload_header_stalls_witness :
  let chunks := [repeat x00 10; repeat x00 6; reply1] in
  let w' := run (map reads chunks) session in
  receiver w' = RxRunning (concat chunks) 0
  /\ client w' = client session
  /\ notified w' = notified session
  /\ logged w' = logged session.
Proof.
  apply (empty_payload_header_stalls session [repeat x00 10; repeat x00 6; reply1]).
  - reflexivity.
  - reflexivity.
  - reflexivity.
Defined.

End ReceiverExtras.

(** ** Further properties of sending and waiting *)

Module SendExtras.
Import Codec Client Calls.

Section WithLibs.
Context {apiconsts : ApiConsts} {pb : ProtoLib}.

Lemma encode_frame_nonempty hdr_msg bodies full_msg :
  encode_frame hdr_msg bodies = Return full_msg -> (16 <= length full_msg)%nat.
Proof.
  intros H. apply RoundTrip.encode_frame_shape in H as (_ & packed & Hp & ->).
  rewrite !length_app, Hp. cbn. lia.
Qed.

Lemma send_msgs_state {M} `{Serialize M} api_call_type (msgs : option (list M)) w s full_msg :
  _socket (client w) = Some s ->
  encode_frame {| api_call := api_call_type; msg_id := val (_cur_msg_id (client w)) |}
               (map SerializeToString (default [] msgs)) = Return full_msg ->
  send_msgs api_call_type msgs [] w
  = (Return (val (_cur_msg_id (client w))), after_send full_msg w).
Proof.
  intros Hs Henc. pose proof (encode_frame_nonempty _ _ _ Henc) as Hlen.
  unfold send_msgs, get_and_inc.
  cbn [with_client with_cur_msg_id client _cur_msg_id val].
  rewrite Henc.
  erewrite SendFacts.send_loop_whole by (cbn; exact Hs).
  cbn [msg_id].
  destruct (Nat.eqb_spec (length full_msg) 0) as [H0|]; [lia|done].
Qed.

(** X9: On a connected session whose socket takes each frame whole, two sends
    in a row return consecutive ids, starting with the counter's value, and
    put the two encoded frames on the wire one after the other; the socket
    and the reply table are not touched. *)
Theorem two_sends_in_a_row {M1 M2} `{Serialize M1} `{Serialize M2}
    (tag1 tag2 : string) (msgs1 : option (list M1)) (msgs2 : option (list M2))
    (w : World) (s : Socket) (frame1 frame2 : bytes) :
  _socket (client w) = Some s ->
  encode_frame {| api_call := tag1; msg_id := val (_cur_msg_id (client w)) |}
               (map SerializeToString (default [] msgs1)) = Return frame1 ->
  encode_frame {| api_call := tag2; msg_id := val (_cur_msg_id (client w)) + 1 |}
               (map SerializeToString (default [] msgs2)) = Return frame2 ->
  let '(r1, w1) := send_msgs tag1 msgs1 [] w in
  let '(r2, w2) := send_msgs tag2 msgs2 [] w1 in
  r1 = Return (val (_cur_msg_id (client w)))
  /\ r2 = Return (val (_cur_msg_id (client w)) + 1)
  /\ wire w2 = wire w ++ frame1 ++ frame2
  /\ val (_cur_msg_id (client w2)) = val (_cur_msg_id (client w)) + 2
  /\ _socket (client w2) = Some s
  /\ _replies (client w2) = _replies (client w).
Proof.
  intros Hs Henc1 Henc2.
  rewrite (send_msgs_state tag1 msgs1 w s frame1) by done.
  rewrite (send_msgs_state tag2 msgs2 (after_send frame1 w) s frame2) by done.
  cbn. repeat split; try done.
  - by rewrite <- app_assoc.
  - lia.
Qed.

(** X10: A send on a session without socket raises [AttributeError] and writes
    nothing, but the message id it took is used up: the counter has
    advanced. *)
Theorem send_without_socket_uses_up_an_id {M} `{Serialize M} (api_call_type : string)
    (msgs : option (list M)) (room : list nat) (w : World) (full_msg : bytes) :
  _socket (client w) = None ->
  encode_frame {| api_call := api_call_type; msg_id := val (_cur_msg_id (client w)) |}
               (map SerializeToString (default [] msgs)) = Return full_msg ->
  send_msgs api_call_type msgs room w
  = (Raise AttributeError,
     with_client (with_cur_msg_id {| val := val (_cur_msg_id (client w)) + 1 |} (client w)) w).
Proof.
  intros Hs Henc. pose proof (encode_frame_nonempty _ _ _ Henc) as Hlen.
  unfold send_msgs, get_and_inc.
  cbn [with_client with_cur_msg_id client _cur_msg_id val].
  rewrite Henc.
  destruct (length full_msg) as [|n] eqn:Hn; [lia|].
  cbn [send_loop Nat.ltb Nat.leb with_client client with_socket with_cur_msg_id _socket].
  by rewrite Hs.
Qed.

Lemma run_pass_timeout p w :
  connected w = true -> select_rds p = false -> disconnect_in_select p = false ->
  run_pass p w = w.
Proof.
  unfold connected, run_pass. intros Hconn Hsel Hdis.
  destruct (receiver w); try done.
  destruct (_socket (client w)); [|done].
  by rewrite Hdis, Hsel.
Qed.

(** X11: [wait_for_result] has no timeout of its own: on a connected session
    with no reply for the id, the caller is still waiting after any number
    of waits during which the receiver's [select] only times out, and the
    session is as it was. *)
Theorem wait_for_result_has_no_timeout (msg_id : Z) (env : list (list EnvAction))
    (w : World) :
  connected w = true ->
  _replies (client w) !! msg_id = None ->
  only_timeouts env ->
  wait_for_result msg_id env w = (Unfinished, w).
Proof.
  intros Hconn Hrep Henv. induction Henv as [|actions env Hact _ IH].
  - cbn. by rewrite Hrep, Hconn.
  - cbn [wait_for_result]. rewrite Hrep, Hconn. cbn [negb].
    assert (Hsame : foldl env_step w actions = w).
    { clear IH. induction Hact as [|a actions Ha _ IHa]; [done|].
      cbn [foldl]. destruct a as [p|]; [|done]. destruct Ha as [Hsel Hdis].
      cbn [env_step]. by rewrite run_pass_timeout. }
    by rewrite Hsame.
Qed.

End WithLibs.

Import Wire Samples.
#[local] Existing Instance sample_consts.
#[local] Existing Instance sample_proto.

(** Two [node_list] requests on the sample session. *)
Lemma two_sends_in_a_row_witness :
  let '(r1, w1) := send_msgs (M := MsgCrtNode) "API_LST_NODE" None [] session in
  let '(r2, w2) := send_msgs (M := MsgCrtNode) "API_LST_NODE" None [] w1 in
  r1 = Return (val (_cur_msg_id (client session)))
  /\ r2 = Return (val (_cur_msg_id (client session)) + 1)
  /\ wire w2 = wire session ++ request1 ++ frame "API_LST_NODE" 2 []
  /\ val (_cur_msg_id (client w2)) = val (_cur_msg_id (client session)) + 2
  /\ _socket (client w2)
     = Some {| sock_host := "controller"; sock_port := PortNumber 3376;
               sock_ssl := false; sock_blocking := false |}
  /\ _replies (client w2) = _replies (client session).
Proof.
  apply (two_sends_in_a_row (M1 := MsgCrtNode) (M2 := MsgCrtNode)
           "API_LST_NODE" "API_LST_NODE" None None session).
  - reflexivity.
  - reflexivity.
  - reflexivity.
Defined.

(** A send after [disconnect]. *)
Lemma send_without_socket_uses_up_an_id_witness :
  send_msgs (M := MsgCrtNode) "API_LST_NODE" None [] (disconnect session)
  = (Raise AttributeError,
     with_client (with_cur_msg_id
                    {| val := val (_cur_msg_id (client (disconnect session))) + 1 |}
                    (client (disconnect session))) (disconnect session)).
Proof.
  apply (send_without_socket_uses_up_an_id (M := MsgCrtNode) "API_LST_NODE" None []
           (disconnect session) request1).
  - reflexivity.
  - reflexivity.
Defined.

(** Three waits during which the receiver only times out. *)
Lemma wait_for_result_has_no_timeout_witness :
  wait_for_result 1 [[EnvPass timeout]; [EnvPass timeout; EnvPass timeout]; []] session
  = (Unfinished, session).
Proof.
  apply (wait_for_result_has_no_timeout 1
           [[EnvPass timeout]; [EnvPass timeout; EnvPass timeout]; []] session).
  - reflexivity.
  - reflexivity.
  - repeat constructor.
Defined.

End SendExtras.


(** ** What the receiver leaves alone *)

Module ReceiverInvariant.
Import Codec Client Calls.

Section WithLibs.
Context {apiconsts : ApiConsts} {pb : ProtoLib}.

Lemma receiver_leaves_refl w : receiver_leaves w w.
Proof. unfold receiver_leaves. repeat split; auto. Qed.

Lemma receiver_leaves_trans w1 w2 w3 :
  receiver_leaves w1 w2 -> receiver_leaves w2 w3 -> receiver_leaves w1 w3.
Proof.
  intros (A1 & A2 & A3 & A4 & A5 & A6 & A7) (B1 & B2 & B3 & B4 & B5 & B6 & B7).
  unfold receiver_leaves. repeat split; try congruence; try lia; auto.
Qed.

Lemma receiver_leaves_with_receiver r w w' :
  receiver_leaves w w' -> receiver_leaves w (with_receiver r w').
Proof. done. Qed.

Lemma _parse_api_version_leaves data w :
  receiver_leaves w (_parse_api_version data w).2.
Proof.
  unfold _parse_api_version.
  destruct (ParseFromString data) as [msg| |]; try apply receiver_leaves_refl.
  destruct (_api_version (client w)) eqn:Hv; cbn.
  - unfold receiver_leaves. cbn. repeat split; auto.
  - unfold receiver_leaves. cbn. repeat split; auto. intros v. by rewrite Hv.
Qed.

Lemma dispatch_leaves package w : receiver_leaves w (dispatch package w).2.
Proof.
  unfold dispatch.
  repeat (case_match; simplify_eq; try apply receiver_leaves_refl).
  all: try match goal with Hv : _parse_api_version ?d ?w0 = _ |- _ =>
         pose proof (_parse_api_version_leaves d w0) as Hl; rewrite Hv in Hl; exact Hl end.
  all: unfold receiver_leaves; cbn; repeat split; auto.
  intros id Hx.
  match goal with |- is_Some (<[?k := _]> _ !! _) => destruct (decide (k = id)) as [->|Hne] end.
  - rewrite lookup_insert_eq. eauto.
  - by rewrite lookup_insert_ne.
Qed.

Lemma receive_leaves read package exp_pkg_len w :
  receiver_leaves w (receive read package exp_pkg_len w).
Proof.
  unfold receive. cbv zeta.
  repeat (case_match; simplify_eq; try apply receiver_leaves_refl);
    try (apply receiver_leaves_with_receiver; try apply receiver_leaves_refl);
    match goal with Hd : dispatch ?p ?w0 = _ |- _ =>
      pose proof (dispatch_leaves p w0) as Hl; rewrite Hd in Hl; exact Hl end.
Qed.

Lemma disconnect_leaves w : receiver_leaves w (disconnect w).
Proof.
  unfold disconnect. destruct (_socket (client w)); [|apply receiver_leaves_refl].
  unfold receiver_leaves. cbn. repeat split; auto.
Qed.

Lemma run_pass_leaves p w : receiver_leaves w (run_pass p w).
Proof.
  unfold run_pass.
  destruct (receiver w); try apply receiver_leaves_refl.
  destruct (_socket (client w));
    [|apply receiver_leaves_with_receiver, receiver_leaves_refl].
  assert (Hd : receiver_leaves w (if disconnect_in_select p then disconnect w else w)).
  { destruct (disconnect_in_select p); [apply disconnect_leaves|apply receiver_leaves_refl]. }
  destruct (select_rds p); [|done].
  destruct (_socket (client (if disconnect_in_select p then disconnect w else w))); [|done].
  destruct (recv_result p).
  - eapply receiver_leaves_trans; [exact Hd|apply receive_leaves].
  - by apply receiver_leaves_with_receiver.
Qed.

Lemma run_leaves (passes : list Pass) (w : World) : receiver_leaves w (run passes w).
Proof.
  revert w. induction passes as [|p passes IH]; intros w.
  - apply receiver_leaves_refl.
  - cbn [run foldl]. eapply receiver_leaves_trans; [apply run_pass_leaves|apply IH].
Qed.

(** X12: Whatever the receiver thread reads, in any number of passes and
    with other threads disconnecting in between, it keeps to its own part of
    the session: the id counter, the timeout, the bytes written and the
    connections opened are untouched, a stored API version stays as it is,
    and no reply is ever taken out of the reply table. *)
Theorem receiver_keeps_to_its_own (passes : list Pass) (w : World) :
  let w' := run passes w in
  _cur_msg_id (client w') = _cur_msg_id (client w)
  /\ _timeout (client w') = _timeout (client w)
  /\ wire w' = wire w
  /\ opened w' = opened w
  /\ (notified w <= notified w')%nat
  /\ (forall v, _api_version (client w) = Some v -> _api_version (client w') = Some v)
  /\ (forall id, is_Some (_replies (client w) !! id) -> is_Some (_replies (client w') !! id)).
Proof. exact (run_leaves passes w). Qed.

End WithLibs.
End ReceiverInvariant.

(** ** The handshake of [connect] *)

Module HandshakeFacts.
Import Codec Client Framing Calls.

Section WithLibs.
Context {apiconsts : ApiConsts} {pb : ProtoLib}.











Lemma _read_api_version_blocking_keeps incoming w :
  let w' := (_read_api_version_blocking incoming w).2 in
  _socket (client w') = _socket (client w)
  /\ _cur_msg_id (client w') = _cur_msg_id (client w)
  /\ _replies (client w') = _replies (client w)
  /\ _timeout (client w') = _timeout (client w)
  /\ wire w' = wire w /\ receiver w' = receiver w /\ notified w' = notified w
  /\ opened w' = opened w.
Proof.
  unfold _read_api_version_blocking.
  match goal with |- context [match ?x with Return _ => _ | _ => _ end] => destruct x end;
    try done.
  unfold _parse_api_version.
  destruct (ParseFromString _); try done.
  by destruct (_api_version (client w)).
Qed.

End WithLibs.
End HandshakeFacts.

Module ConnectExtras.
Import Codec Client Framing Calls.

Section WithLibs.
Context {apiconsts : ApiConsts} {pb : ProtoLib}.

(** X15: [connect] leaves the id counter, the reply table, the receiver thread
    and the bytes written as they are, whatever the URI and the peer: a
    second [connect] on the same client goes on with the next message id and
    keeps the replies nobody has fetched. *)
Theorem connect_keeps_ids_and_replies (server : string) (peer : Peer) (w : World) :
  let w' := (connect server peer w).2 in
  _cur_msg_id (client w') = _cur_msg_id (client w)
  /\ _replies (client w') = _replies (client w)
  /\ _timeout (client w') = _timeout (client w)
  /\ receiver w' = receiver w
  /\ wire w' = wire w
  /\ notified w' = notified w.
Proof.
  cbv zeta. unfold connect.
  destruct (String.prefix "linstor" (scheme (urlparse server))); [|done]. cbn [negb].
  destruct (parse_host (netloc (urlparse server))) as [host port].
  destruct (accepts_connection peer); [|done]. cbn [negb].
  destruct (String.eqb (scheme (urlparse server)) "linstor+ssl" && negb (accepts_tls peer));
    [done|].
  match goal with |- context [_read_api_version_blocking ?i ?w0] =>
    pose proof (HandshakeFacts._read_api_version_blocking_keeps i w0) as Hk;
    destruct (_read_api_version_blocking i w0) as [r w1] end.
  cbv zeta in Hk. cbn [snd] in Hk. destruct Hk as (_ & K1 & K2 & K3 & K4 & K5 & K6 & _).
  destruct r as [b|e|]; [| destruct e |]; cbn in *; by rewrite ?K1, ?K2, ?K3, ?K4, ?K5, ?K6.
Qed.





End WithLibs.

Import Wire Samples Peers.
#[local] Existing Instance sample_consts.
#[local] Existing Instance sample_proto.





End ConnectExtras.

(** ** The list calls *)

Module CallExtras.
Import Codec Client Framing Calls.

Section WithLibs.
Context {apiconsts : ApiConsts} {pb : ProtoLib}.

Lemma foldl_env_passes (passes : list Pass) : forall w,
  foldl env_step w (map EnvPass passes) = run passes w.
Proof. induction passes as [|p passes IH]; intros w; [done|]. cbn. apply IH. Qed.

(** The receiver's state after the pieces of a reply frame. *)
Lemma run_reply_pieces chunks w frm hdr bodies type_tuple replies :
  receiver w = RxRunning [] 0 ->
  connected w = true ->
  awaiting frm [] 0 ->
  concat chunks = frm ->
  carries frm hdr bodies ->
  String.eqb (api_call hdr) API_VERSION = false ->
  reply_map !! api_call hdr = Some type_tuple ->
  _parse_proto_msgs type_tuple bodies = Return replies ->
  run (map reads chunks) w = with_receiver (RxRunning [] 0) (deposit (msg_id hdr) replies w).
Proof.
  intros Hrx Hconn Haw Hfrm Hcar Htag Hmap Hparse.
  rewrite (FramingFacts.run_pieces chunks w frm [] 0); [|done..|].
  - unfold complete.
    rewrite (FramingFacts.dispatch_reply frm hdr bodies type_tuple replies) by done.
    by rewrite (FramingFacts.with_receiver_same w).
  - by rewrite (FramingFacts.dispatch_reply frm hdr bodies type_tuple replies).
Qed.

(** X20: A list call from request to result.  On a connected session whose
    socket takes the request whole, with the receiver at a frame boundary
    and no stale reply under the next id: when the controller's reply
    frame for that id arrives during the first wait, in any number of
    pieces, the call returns the first parsed reply, or the empty list when
    the frame has no body.  The request is on the wire, the id is used up
    and the reply table is as before.  The reply is matched by its id
    alone: its tag only chooses the class that parses it. *)
Theorem list_call_returns_first_reply (api_call_type : string) (w : World) (s : Socket)
    (request frm : bytes) (chunks : list bytes) (later : list (list EnvAction))
    (hdr : MsgHeader) (bodies : list bytes) (type_tuple : MsgType * option WrapperType)
    (replies : list Reply) :
  _socket (client w) = Some s ->
  receiver w = RxRunning [] 0 ->
  _replies (client w) !! val (_cur_msg_id (client w)) = None ->
  encode_frame {| api_call := api_call_type; msg_id := val (_cur_msg_id (client w)) |} []
  = Return request ->
  concat chunks = frm ->
  awaiting frm [] 0 ->
  carries frm hdr bodies ->
  msg_id hdr = val (_cur_msg_id (client w)) ->
  String.eqb (api_call hdr) API_VERSION = false ->
  reply_map !! api_call hdr = Some type_tuple ->
  _parse_proto_msgs type_tuple bodies = Return replies ->
  let '(r, w') := list_call api_call_type [] (map EnvPass (map reads chunks) :: later) w in
  r = Return (head replies)
  /\ wire w' = wire w ++ request
  /\ val (_cur_msg_id (client w')) = val (_cur_msg_id (client w)) + 1
  /\ _replies (client w') = _replies (client w)
  /\ notified w' = S (notified w)
  /\ receiver w' = RxRunning [] 0.
Proof.
  intros Hs Hrx Hnone Henc Hfrm Haw Hcar Hid Htag Hmap Hparse.
  unfold list_call.
  rewrite (SendExtras.send_msgs_state api_call_type None w s request) by done.
  assert (Hs1 : _socket (client (after_send request w)) = Some s) by done.
  assert (Hn1 : _replies (client (after_send request w)) !! val (_cur_msg_id (client w)) = None)
    by done.
  cbn [wait_for_result]. rewrite Hn1. unfold connected at 1. rewrite Hs1. cbn [negb].
  rewrite foldl_env_passes.
  rewrite (run_reply_pieces chunks _ frm hdr bodies type_tuple replies); [|try done..].
  - rewrite Hid.
    destruct later; cbn [wait_for_result deposit with_receiver notifyAll with_client
                          with_replies with_wire client _replies];
      rewrite lookup_insert_eq; cbn; by rewrite delete_insert_id.
  - unfold connected. by rewrite Hs1.
Qed.

(** X21: A session that is disconnected while a list call waits gives the caller
    the empty list, the value a reply frame without bodies gives as well.
    The request has been written and its id is used up. *)
Theorem list_call_disconnected_while_waiting (api_call_type : string) (w : World)
    (s : Socket) (request : bytes) (later : list (list EnvAction)) :
  _socket (client w) = Some s ->
  _replies (client w) !! val (_cur_msg_id (client w)) = None ->
  encode_frame {| api_call := api_call_type; msg_id := val (_cur_msg_id (client w)) |} []
  = Return request ->
  list_call api_call_type [] ([EnvDisconnect] :: later) w
  = (Return None, disconnect (after_send request w)).
Proof.
  intros Hs Hnone Henc. unfold list_call.
  rewrite (SendExtras.send_msgs_state api_call_type None w s request) by done.
  assert (Hs1 : _socket (client (after_send request w)) = Some s) by done.
  assert (Hn1 : _replies (client (after_send request w)) !! val (_cur_msg_id (client w)) = None)
    by done.
  cbn [wait_for_result]. rewrite Hn1. unfold connected at 1. rewrite Hs1.
  cbn [negb foldl env_step].
  assert (Hs2 : _socket (client (disconnect (after_send request w))) = None).
  { unfold disconnect. by rewrite Hs1. }
  assert (Hn2 : _replies (client (disconnect (after_send request w)))
                !! val (_cur_msg_id (client w)) = None).
  { unfold disconnect. by rewrite Hs1. }
  destruct later; cbn [wait_for_result]; rewrite Hn2; unfold connected; by rewrite Hs2.
Qed.

End WithLibs.

Import Wire Samples.
#[local] Existing Instance sample_consts.
#[local] Existing Instance sample_proto.

(** [node_list] on the sample session; the reply comes in three reads. *)
Lemma list_call_returns_first_reply_witness :
  let '(r, w') :=
    list_call "API_LST_NODE" []
      (map EnvPass (map reads [take 7 reply1; []; drop 7 reply1]) :: [[EnvPass timeout]])
      session in
  r = Return (head [Plain {| pb_class := MsgLstNode_cls; pb_wire := [x01; x02] |}])
  /\ wire w' = wire session ++ request1
  /\ val (_cur_msg_id (client w')) = val (_cur_msg_id (client session)) + 1
  /\ _replies (client w') = _replies (client session)
  /\ notified w' = S (notified session)
  /\ receiver w' = RxRunning [] 0.
Proof.
  apply (list_call_returns_first_reply "API_LST_NODE" session
           {| sock_host := "controller"; sock_port := PortNumber 3376;
              sock_ssl := false; sock_blocking := false |}
           request1 reply1 [take 7 reply1; []; drop 7 reply1] [[EnvPass timeout]]
           {| api_call := "API_LST_NODE"; msg_id := 1 |} [[x01; x02]]
           (MsgLstNode_cls, None)).
  - reflexivity.
  - reflexivity.
  - reflexivity.
  - reflexivity.
  - reflexivity.
  - exists 20. vm_compute. repeat split; try done. lia.
  - eexists. split; reflexivity.
  - reflexivity.
  - reflexivity.
  - reflexivity.
  - reflexivity.
Defined.

(** [node_list] on the sample session, disconnected during the first wait. *)
Lemma list_call_disconnected_while_waiting_witness :
  list_call "API_LST_NODE" [] ([EnvDisconnect] :: [[EnvPass timeout]]) session
  = (Return None, disconnect (after_send request1 session)).
Proof.
  apply (list_call_disconnected_while_waiting "API_LST_NODE" session
           {| sock_host := "controller"; sock_port := PortNumber 3376;
              sock_ssl := false; sock_blocking := false |}
           request1 [[EnvPass timeout]]).
  - reflexivity.
  - reflexivity.
  - reflexivity.
Defined.

End CallExtras.


(** ** Parsing the bodies, and the end of the receiver thread *)

Module ThreadExtras.
Import Codec Client Framing Calls.

Section WithLibs.
Context {apiconsts : ApiConsts} {pb : ProtoLib}.

Lemma parse_each_all msg_type wrapper_type : forall data resps msg_resps,
  Forall2 (fun msg resp => pb_parse_body msg_type msg = Return resp) data resps ->
  parse_each msg_type wrapper_type data msg_resps
  = Return (msg_resps ++ map (wrap wrapper_type) resps).
Proof.
  induction data as [|msg data IH]; intros resps msg_resps Hall.
  - inversion Hall; subst. cbn. by rewrite app_nil_r.
  - inversion Hall as [|? resp ? resps' Hm Hall']; subst. cbn. rewrite Hm. cbn.
    rewrite (IH resps') by done. by rewrite <- app_assoc.
Qed.

Lemma parse_each_fails msg_type wrapper_type : forall data msg_resps resps msg later e,
  Forall2 (fun msg resp => pb_parse_body msg_type msg = Return resp) data resps ->
  pb_parse_body msg_type msg = Raise e ->
  parse_each msg_type wrapper_type (data ++ msg :: later) msg_resps = Raise e.
Proof.
  induction data as [|m data IH]; intros msg_resps resps msg later e Hall Hbad.
  - cbn. by rewrite Hbad.
  - inversion Hall as [|? resp ? resps' Hm Hall']; subst. cbn. rewrite Hm. cbn.
    by apply (IH _ resps').
Qed.

(** X13: [_parse_proto_msgs] gives one reply per message, in the order of the
    messages, each wrapped when the reply class has a wrapper.  It gives all
    or nothing: when a message does not parse, its exception is the result
    and the replies parsed before it are lost, whatever follows. *)
Theorem parse_proto_msgs_all_or_nothing (msg_type : MsgType)
    (wrapper_type : option WrapperType) (good : list bytes) (resps : list PbMsg) :
  Forall2 (fun msg resp => pb_parse_body msg_type msg = Return resp) good resps ->
  _parse_proto_msgs (msg_type, wrapper_type) good = Return (map (wrap wrapper_type) resps)
  /\ (forall msg later e,
        pb_parse_body msg_type msg = Raise e ->
        _parse_proto_msgs (msg_type, wrapper_type) (good ++ msg :: later) = Raise e).
Proof.
  intros Hall. split.
  - unfold _parse_proto_msgs. cbn [fst snd]. by rewrite (parse_each_all _ _ good resps).
  - intros msg later e Hbad. by apply (parse_each_fails _ _ good [] resps).
Qed.

Lemma run_not_running passes : forall w,
  (forall package exp_pkg_len, receiver w <> RxRunning package exp_pkg_len) ->
  run passes w = w.
Proof.
  induction passes as [|p passes IH]; intros w Hrx; [done|].
  cbn [run foldl]. rewrite SessionFacts.run_pass_not_running by done. by apply IH.
Qed.

(** X14: A [disconnect] while the receiver waits in [select] ends the thread:
    whatever [select] reports, the receiver reads nothing more, and at the
    next test of its loop it exits.  The bytes of an unfinished frame are
    dropped with it. *)
Theorem disconnect_ends_the_receiver (p : Pass) (passes : list Pass) (w : World)
    (package : bytes) (exp_pkg_len : Z) :
  receiver w = RxRunning package exp_pkg_len ->
  connected w = true ->
  disconnect_in_select p = true ->
  passes <> [] ->
  run (p :: passes) w = with_receiver RxExited (disconnect w).
Proof.
  intros Hrx Hconn Hdis Hne. unfold connected in Hconn.
  destruct (_socket (client w)) as [s|] eqn:Hs; [|done].
  assert (Hp : run_pass p w = disconnect w).
  { unfold run_pass. rewrite Hrx, Hs, Hdis. unfold disconnect. rewrite Hs. cbn.
    by destruct (select_rds p). }
  destruct passes as [|p' passes]; [done|].
  cbn [run foldl]. rewrite Hp.
  assert (Hp' : run_pass p' (disconnect w) = with_receiver RxExited (disconnect w)).
  { unfold run_pass, disconnect. rewrite Hs. cbn. by rewrite Hrx. }
  rewrite Hp'. by apply run_not_running.
Qed.

End WithLibs.

Import Wire Samples.
#[local] Existing Instance sample_consts.
#[local] Existing Instance sample_proto.

(** Two bodies of an [API_REPLY] frame. *)
Lemma parse_proto_msgs_all_or_nothing_witness :
  _parse_proto_msgs (MsgApiCallResponse_cls, Some ApiCallResponse_cls) [[x01]; [x02; x03]]
  = Return (map (wrap (Some ApiCallResponse_cls))
                [{| pb_class := MsgApiCallResponse_cls; pb_wire := [x01] |};
                 {| pb_class := MsgApiCallResponse_cls; pb_wire := [x02; x03] |}])
  /\ (forall msg later e,
        pb_parse_body MsgApiCallResponse_cls msg = Raise e ->
        _parse_proto_msgs (MsgApiCallResponse_cls, Some ApiCallResponse_cls)
                          ([[x01]; [x02; x03]] ++ msg :: later) = Raise e).
Proof.
  apply (parse_proto_msgs_all_or_nothing MsgApiCallResponse_cls (Some ApiCallResponse_cls)
           [[x01]; [x02; x03]]).
  repeat constructor.
Defined.

(** Another thread disconnects the sample session while the receiver, with
    the first 7 bytes of a reply in its buffer, waits in [select]. *)
Lemma disconnect_ends_the_receiver_witness :
  run ({| select_rds := true; disconnect_in_select := true;
          recv_result := RecvBytes (drop 7 reply1) |} :: [timeout])
      (run_pass (reads (take 7 reply1)) session)
  = with_receiver RxExited (disconnect (run_pass (reads (take 7 reply1)) session)).
Proof.
  apply (disconnect_ends_the_receiver _ [timeout] _ (take 7 reply1) 0).
  - reflexivity.
  - reflexivity.
  - reflexivity.
  - discriminate.
Defined.

End ThreadExtras.

(** ** Volume sizes *)

Module SizeFacts.
Import Client VolumeDefinitionCommands.
Local Open Scope string_scope.

Lemma append_nil_l (s : string) : "" ++ s = s.
Proof. reflexivity. Qed.

Lemma append_cons c (a b : string) : String c a ++ b = String c (a ++ b).
Proof. reflexivity. Qed.

Lemma append_nil_r s : s ++ "" = s.
Proof. induction s as [|c s IH]; [done|]. by rewrite append_cons, IH. Qed.

Lemma span_app p a b :
  all_chars p a = true -> stops_at (fun c => negb (p c)) b = true ->
  span p (a ++ b) = (a, b).
Proof.
  intros Ha Hb. induction a as [|c a IH].
  - rewrite append_nil_l. destruct b as [|c b]; [done|]. cbn in *. by destruct (p c).
  - rewrite append_cons. cbn in *. apply andb_prop in Ha as [Hc Ha]. by rewrite Hc, IH.
Qed.

Lemma stops_at_nondigit_digit b :
  stops_at is_digit b = true -> stops_at (fun c => negb (is_nondigit c)) b = true.
Proof. destruct b; cbn; [done|]. unfold is_nondigit. by rewrite negb_involutive. Qed.

(** What the pattern matches in a string made of digits, a unit without
    digits, and a rest that is empty or starts with a digit. *)
Lemma re_match_parts digits unit rest :
  digits <> "" ->
  all_chars is_digit digits = true ->
  all_chars is_nondigit unit = true ->
  stops_at is_digit rest = true ->
  unit <> "" \/ rest = "" ->
  re_match (digits ++ unit ++ rest) = Some (digits, unit).
Proof.
  intros Hne Hd Hu Hr Hsep. unfold re_match.
  rewrite (span_app is_digit digits (unit ++ rest)); [|done|].
  - destruct digits; [done|].
    by rewrite (span_app is_nondigit unit rest) by auto using stops_at_nondigit_digit.
  - destruct unit as [|c unit]; cbn in *.
    + destruct Hsep as [? | ->]; done.
    + apply andb_prop in Hu as [Hc _]. exact Hc.
Qed.

Lemma re_match_whole digits unit :
  digits <> "" ->
  all_chars is_digit digits = true ->
  all_chars is_nondigit unit = true ->
  re_match (digits ++ unit) = Some (digits, unit).
Proof.
  intros Hne Hd Hu.
  rewrite <- (append_nil_r unit) at 1. apply re_match_parts; auto.
Qed.

Lemma re_match_None s : re_match s = None <-> stops_at is_nondigit s = true.
Proof.
  unfold re_match. destruct s as [|c s]; cbn; [done|].
  unfold is_nondigit. destruct (is_digit c); cbn.
  - destruct (span is_digit s). split; discriminate.
  - done.
Qed.

Lemma lower_char_lower c : lower_char (lower_char c) = lower_char c.
Proof. destruct c as [[] [] [] [] [] [] [] []]; reflexivity. Qed.

Lemma lower_char_nondigit c : is_nondigit (lower_char c) = is_nondigit c.
Proof. destruct c as [[] [] [] [] [] [] [] []]; reflexivity. Qed.

Lemma lower_lower s : lower (lower s) = lower s.
Proof. induction s as [|c s IH]; cbn; [done|]. by rewrite lower_char_lower, IH. Qed.

Lemma lower_nondigit s : all_chars is_nondigit (lower s) = all_chars is_nondigit s.
Proof. induction s as [|c s IH]; cbn; [done|]. by rewrite lower_char_nondigit, IH. Qed.

Lemma lower_empty s : lower s = "" <-> s = "".
Proof. destruct s; cbn; split; done. Qed.

Lemma span_fst_all p s : all_chars p (span p s).1 = true.
Proof.
  induction s as [|c s IH]; cbn; [done|].
  destruct (p c) eqn:Hc; [|done]. destruct (span p s). cbn in *. by rewrite Hc, IH.
Qed.

(** The groups of a match: digits, at least one, and then no digit. *)
Lemma re_match_Some s digits unit :
  re_match s = Some (digits, unit) ->
  digits <> "" /\ all_chars is_digit digits = true /\ all_chars is_nondigit unit = true.
Proof.
  unfold re_match. pose proof (span_fst_all is_digit s) as Hd.
  destruct (span is_digit s) as [d rest]. cbn in Hd.
  destruct d as [|c d]; [done|]. intros [= <- <-].
  repeat split; [done|done|apply span_fst_all].
Qed.

Lemma prefix_lower u : forall x,
  String.prefix u x = true -> lower x = x -> lower u = u.
Proof.
  induction u as [|c u IH]; intros x Hp Hx; [done|].
  destruct x as [|d x]; [done|]. cbn in *.
  destruct (Ascii.ascii_dec c d) as [->|]; [|done].
  injection Hx as Hd Hx. by rewrite Hd, (IH x).
Qed.

Section WithSizeCalc.
Context {sizecalc : SizeCalc}.

Lemma getitem_key d u : In u (map fst d) -> exists unit, getitem d u = Some unit.
Proof.
  induction d as [|[k v] d IH]; [done|]. cbn. intros [->|Hin].
  - rewrite String.eqb_refl. eauto.
  - destruct (String.eqb k u); eauto.
Qed.

(** [_get_volume_size] on the groups of the match. *)
Lemma _get_volume_size_groups s digits unit :
  re_match s = Some (digits, unit) ->
  _get_volume_size s
  = match getitem UNITS_MAP (lower (if String.eqb unit "" then "GiB" else unit)) with
    | None =>
      inl {| stderr := dquote ++ (if String.eqb unit "" then "GiB" else unit) ++ dquote
                       ++ " is not a valid unit!" ++ newline
                       ++ "Valid units: " ++ String.concat "," (map fst UNITS_MAP)
                       ++ newline;
             status := ARGPARSE_ERROR |}
    | Some u =>
      inr (if decide (u = UNIT_kiB) then int digits
           else convert_round_up (int digits) u UNIT_kiB)
    end.
Proof. intros H. unfold _get_volume_size. by rewrite H. Qed.

(** X22: [_get_volume_size] reads the digits and the unit at the start of
    the text and nothing else: whatever follows the unit, from the next
    digit on, is ignored.  A size like [10GiB5] is taken as [10GiB]. *)
Theorem volume_size_ignores_the_rest (digits unit rest : string) :
  digits <> "" ->
  all_chars is_digit digits = true ->
  unit <> "" ->
  all_chars is_nondigit unit = true ->
  stops_at is_digit rest = true ->
  _get_volume_size (digits ++ unit ++ rest) = _get_volume_size (digits ++ unit).
Proof.
  intros Hne Hd Hu Hnd Hr.
  rewrite (_get_volume_size_groups (digits ++ unit ++ rest) digits unit)
    by (apply re_match_parts; auto).
  by rewrite (_get_volume_size_groups (digits ++ unit) digits unit)
    by (apply re_match_whole; auto).
Qed.

(** X23: A size without unit is a size in GiB. *)
Theorem volume_size_default_unit (digits : string) :
  digits <> "" ->
  all_chars is_digit digits = true ->
  _get_volume_size digits = _get_volume_size (digits ++ "GiB").
Proof.
  intros Hne Hd.
  rewrite (_get_volume_size_groups digits digits "").
  - by rewrite (_get_volume_size_groups (digits ++ "GiB") digits "GiB")
      by (apply re_match_whole; auto).
  - rewrite <- (append_nil_r digits) at 1. by apply re_match_whole.
Qed.

(** X24: The unit is looked up in lower case: a size gives the same number
    whatever the case of the letters of its unit, and fails for the one
    spelling when it fails for the other. *)
Theorem volume_size_unit_case (digits unit : string) :
  digits <> "" ->
  all_chars is_digit digits = true ->
  all_chars is_nondigit unit = true ->
  match _get_volume_size (digits ++ unit), _get_volume_size (digits ++ lower unit) with
  | inr size1, inr size2 => size1 = size2
  | inl exit1, inl exit2 => status exit1 = status exit2
  | _, _ => False
  end.
Proof.
  intros Hne Hd Hnd.
  rewrite (_get_volume_size_groups (digits ++ unit) digits unit)
    by (apply re_match_whole; auto).
  rewrite (_get_volume_size_groups (digits ++ lower unit) digits (lower unit))
    by (apply re_match_whole; auto; by rewrite lower_nondigit).
  destruct unit as [|c unit].
  - cbn [lower String.eqb]. by destruct (getitem UNITS_MAP _).
  - cbn [lower String.eqb]. rewrite lower_char_lower, lower_lower.
    by destruct (getitem UNITS_MAP _).
Qed.

(** X25: Without a digit at the start of the text there is no match: that, and
    nothing else, makes [size_completer] raise [AttributeError], where
    [_get_volume_size] writes that the size is not a valid number and exits
    with [ARGPARSE_ERROR]. *)
Theorem no_leading_digit (s : string) :
  (size_completer s = Raise AttributeError <-> stops_at is_nondigit s = true)
  /\ (_get_volume_size s
      = inl {| stderr := "Size is not a valid number" ++ newline; status := ARGPARSE_ERROR |}
      <-> stops_at is_nondigit s = true).
Proof.
  rewrite <- re_match_None. unfold size_completer, _get_volume_size.
  destruct (re_match s) as [[group1 group2]|]; [|done].
  split; split; try done.
  destruct (getitem UNITS_MAP _); [done|]. intros [= H].
Qed.

(** X26: With a unit table whose keys are not empty, have no digit and are in
    lower case, every completion [size_completer] offers is a size
    [_get_volume_size] accepts. *)
Theorem completions_are_valid_sizes (prefix : string) (completions : list string)
    (c : string) :
  Forall (fun key => key <> "" /\ all_chars is_nondigit key = true /\ lower key = key)
         (map fst UNITS_MAP) ->
  size_completer prefix = Return completions ->
  In c completions ->
  exists size, _get_volume_size c = inr size.
Proof.
  intros Hkeys Hcomp Hin. unfold size_completer in Hcomp.
  destruct (re_match prefix) as [[digits unit]|] eqn:Hm; [|done].
  apply re_match_Some in Hm as (Hne & Hd & _).
  injection Hcomp as <-. apply in_map_iff in Hin as (u & <- & Hu).
  assert (Hkey : In u (map fst UNITS_MAP)).
  { destruct (negb (String.eqb unit "")); [|done]. by apply filter_In in Hu as [? _]. }
  rewrite List.Forall_forall in Hkeys. destruct (Hkeys u Hkey) as (Hu0 & Hund & Hlow).
  rewrite (_get_volume_size_groups (digits ++ u) digits u) by (by apply re_match_whole).
  apply String.eqb_neq in Hu0. rewrite Hu0, Hlow.
  destruct (getitem_key UNITS_MAP u Hkey) as [v ->]. eauto.
Qed.

(** X27: The completer compares the unit typed so far with the keys as they are,
    where [_get_volume_size] lowers the unit first: with keys in lower case,
    a unit typed with a capital letter gets no completion at all. *)
Theorem completer_is_case_sensitive (digits unit : string) :
  Forall (fun key => lower key = key) (map fst UNITS_MAP) ->
  digits <> "" ->
  all_chars is_digit digits = true ->
  all_chars is_nondigit unit = true ->
  lower unit <> unit ->
  size_completer (digits ++ unit) = Return [].
Proof.
  intros Hkeys Hne Hd Hnd Hcase. unfold size_completer.
  rewrite (re_match_whole digits unit) by done.
  assert (Hu : String.eqb unit "" = false).
  { apply String.eqb_neq. intros ->. by apply Hcase. }
  rewrite Hu. cbn [negb].
  assert (Hnone : List.filter (fun x => String.prefix unit x) (map fst UNITS_MAP) = []).
  { induction (map fst UNITS_MAP) as [|k keys IH]; [done|].
    apply Forall_cons in Hkeys as [Hk Hkeys]. cbn.
    destruct (String.prefix unit k) eqn:Hp; [|by apply IH].
    destruct Hcase. by apply (prefix_lower unit k). }
  by rewrite Hnone.
Qed.

End WithSizeCalc.

#[local] Existing Instance sample_sizecalc.

(** The size [10GiB5 or so]. *)
Lemma volume_size_ignores_the_rest_witness :
  _get_volume_size ("10" ++ "GiB" ++ "5 or so") = _get_volume_size ("10" ++ "GiB").
Proof.
  apply (volume_size_ignores_the_rest "10" "GiB" "5 or so").
  - discriminate.
  - reflexivity.
  - discriminate.
  - reflexivity.
  - reflexivity.
Defined.

(** The size [10]. *)
Lemma volume_size_default_unit_witness :
  _get_volume_size "10" = _get_volume_size ("10" ++ "GiB").
Proof.
  apply (volume_size_default_unit "10").
  - discriminate.
  - reflexivity.
Defined.

(** The sizes [10GiB] and [10gib]. *)
Lemma volume_size_unit_case_witness :
  match _get_volume_size ("10" ++ "GiB"), _get_volume_size ("10" ++ lower "GiB") with
  | inr size1, inr size2 => size1 = size2
  | inl exit1, inl exit2 => status exit1 = status exit2
  | _, _ => False
  end.
Proof.
  apply (volume_size_unit_case "10" "GiB").
  - discriminate.
  - reflexivity.
  - reflexivity.
Defined.

(** The completion of [10g] on the sample table. *)
Lemma completions_are_valid_sizes_witness :
  exists size, _get_volume_size "10gib" = inr size.
Proof.
  apply (completions_are_valid_sizes "10g" ["10gib"] "10gib").
  - repeat constructor; discriminate.
  - reflexivity.
  - left. reflexivity.
Defined.

(** The prefix [10G] on the sample table. *)
Lemma completer_is_case_sensitive_witness :
  size_completer ("10" ++ "G") = Return [].
Proof.
  apply (completer_is_case_sensitive "10" "G").
  - repeat constructor.
  - discriminate.
  - reflexivity.
  - reflexivity.
  - discriminate.
Defined.

(** On the sample table: 10 GiB are [10 * 2 ^ 20] KiB, and sizes in KiB
    are taken as they are. *)
Example volume_size_samples :
  _get_volume_size "10" = inr 10485760
  /\ _get_volume_size "10GiB5" = inr 10485760
  /\ _get_volume_size "7KiB" = inr 7
  /\ size_completer "10g" = Return ["10gib"]
  /\ size_completer "10" = Return ["10kib"; "10gib"]
  /\ size_completer "" = Raise AttributeError.
Proof. vm_compute. repeat split. Qed.

End SizeFacts.
